(** * diff_submissions.py: comparison of two checkbox submissions

    A shallow embedding of [diff_submissions.py] and the properties of its
    normalizer ([simplify_submission]), diff engine ([diff_submissions]),
    colorizer ([colorize_outcome]) and reporter ([main]).

    Modelling conventions.
    - A Python [str] is a [string]; its elements stand for the characters of
      the text (code points below 256), so that [String.le] is the order
      Python's [sorted] uses on [str].
    - A Python [dict] whose iteration order the program never observes (the
      two simplified submissions: only [keys()] turned into a [set], and
      subscripts, are used) is a [gmap]; the [different] dict, which [main]
      iterates, is the list of its items in insertion order.
    - A Python [set] is a [gset]; the order in which a [for] visits a set is
      not fixed by the language and enters as a section variable.
    - Exceptions are values of [exn]; code that may raise returns a
      [result]. *)

From stdpp Require Import gmap strings list sorting.

Set Warnings "-clear-no-such-hyp".

(** ** Exceptions and results *)

Inductive exn :=
  | KeyError (key : string)
  | TypeError
  | AttributeError
  | SystemExit (msg : string)
  | IndexError
  | OSError (msg : string)
  | JSONDecodeError.

(** [Unmodelled] marks an input on which the program leaves the fragment of
    Python that is embedded here (identifiers or outcomes that are not
    strings); no theorem below speaks about such runs. *)
Inductive result (A : Type) :=
  | Ret (a : A)
  | Raise (e : exn)
  | Unmodelled.
Arguments Ret {A} a.
Arguments Raise {A} e.
Arguments Unmodelled {A}.

#[global] Instance result_ret : MRet result := @Ret.
#[global] Instance result_bind : MBind result := λ A B f m,
  match m with
  | Ret a => f a
  | Raise e => Raise e
  | Unmodelled => Unmodelled
  end.

#[global] Instance exn_eq_dec : EqDecision exn.
Proof. solve_decision. Defined.

(** ** Parsed JSON, as [json.loads] returns it *)

(** A number keeps its literal: the program never computes with one. The
    members of an object are listed as written; [json.loads] keeps, for a
    repeated name, the value written last. *)
#[warnings="-register-all"]
Inductive json :=
  | JNull
  | JBool (b : bool)
  | JNum (literal : string)
  | JStr (s : string)
  | JArr (items : list json)
  | JObj (members : list (string * json)).

(** [d[key]] on the dict read from [members]. *)
Fixpoint members_get (key : string) (members : list (string * json)) : option json :=
  match members with
  | [] => None
  | (k, v) :: rest =>
      match members_get key rest with
      | Some w => Some w
      | None => if decide (k = key) then Some v else None
      end
  end.

(** The keys of the dict read from [members], in insertion order: a name
    written again keeps the place of its first occurrence. *)
Fixpoint first_occurrences (seen keys : list string) : list string :=
  match keys with
  | [] => []
  | k :: rest =>
      if decide (k ∈ seen) then first_occurrences seen rest
      else k :: first_occurrences (k :: seen) rest
  end.

Definition members_keys (members : list (string * json)) : list string :=
  first_occurrences [] members.*1.

(** [o[key]] for a [str] key: only a dict accepts it. *)
Definition getitem (o : json) (key : string) : result json :=
  match o with
  | JObj members =>
      match members_get key members with
      | Some v => Ret v
      | None => Raise (KeyError key)
      end
  | _ => Raise TypeError
  end.

Fixpoint characters (s : string) : list string :=
  match s with
  | EmptyString => []
  | String c rest => String c EmptyString :: characters rest
  end.

(** [for x in o]: a list yields its items, a dict its keys, a str its
    characters; nothing else is iterable. *)
Definition iterate (o : json) : result (list json) :=
  match o with
  | JArr items => Ret items
  | JObj members => Ret (JStr <$> members_keys members)
  | JStr s => Ret (JStr <$> characters s)
  | _ => Raise TypeError
  end.

(** Storing under a key hashes it: lists and dicts are unhashable. *)
Definition as_key (o : json) : result string :=
  match o with
  | JStr s => Ret s
  | JArr _ | JObj _ => Raise TypeError
  | _ => Unmodelled
  end.

Definition as_outcome (o : json) : result string :=
  match o with
  | JStr s => Ret s
  | _ => Unmodelled
  end.

(** ** simplify_submission *)

(** The dict comprehension [{result["id"]: result["status"] for result in ...}]:
    for each item the key expression is evaluated, then the value
    expression (the order of Python 3.8 and later), then the pair is
    stored. *)
Fixpoint simplify_loop (items : list json) (acc : gmap string string)
  : result (gmap string string) :=
  match items with
  | [] => Ret acc
  | entry :: rest =>
      id ← getitem entry "id";
      status ← getitem entry "status";
      job ← as_key id;
      outcome ← as_outcome status;
      simplify_loop rest (<[job := outcome]> acc)
  end.

Definition simplify_submission (submission : json) : result (gmap string string) :=
  results ← getitem submission "results";
  items ← iterate results;
  simplify_loop items ∅.

(** ** diff_submissions *)

(** [d[key]] on a simplified submission. *)
Definition dict_getitem (d : gmap string string) (key : string) : result string :=
  match d !! key with
  | Some v => Ret v
  | None => Raise (KeyError key)
  end.

(** An insertion-ordered dict, as the list of its items. *)
Definition odict (V : Type) : Type := list (string * V).

Fixpoint odict_set {V} (key : string) (v : V) (d : odict V) : odict V :=
  match d with
  | [] => [(key, v)]
  | (k, w) :: rest =>
      if decide (k = key) then (k, v) :: rest else (k, w) :: odict_set key v rest
  end.

Fixpoint odict_get {V} (key : string) (d : odict V) : option V :=
  match d with
  | [] => None
  | (k, w) :: rest => if decide (k = key) then Some w else odict_get key rest
  end.

Definition odict_keys {V} (d : odict V) : list string := d.*1.

Record diff_result := DiffResult {
  only1 : gset string;
  only2 : gset string;
  different : odict (string * string);
}.

(** [{job: (s1[job], s2[job]) for job in both if s1[job] != s2[job]}], with
    [jobs] the order in which the loop visits [both]. *)
Fixpoint different_loop (submission1 submission2 : gmap string string)
    (jobs : list string) (acc : odict (string * string))
  : result (odict (string * string)) :=
  match jobs with
  | [] => Ret acc
  | job :: rest =>
      a ← dict_getitem submission1 job;
      b ← dict_getitem submission2 job;
      if decide (a ≠ b) then
        x ← dict_getitem submission1 job;
        y ← dict_getitem submission2 job;
        different_loop submission1 submission2 rest (odict_set job (x, y) acc)
      else different_loop submission1 submission2 rest acc
  end.

(** An iteration order for sets: each element is visited once. *)
Definition visits_once (order : gset string → list string) : Prop :=
  ∀ X, order X ≡ₚ elements X.

Definition diff_submissions (set_order : gset string → list string)
    (submission1 submission2 : gmap string string) : result diff_result :=
  let jobs1 : gset string := dom submission1 in
  let jobs2 : gset string := dom submission2 in
  let only1 := jobs1 ∖ jobs2 in
  let only2 := jobs2 ∖ jobs1 in
  let both := jobs1 ∩ jobs2 in
  different ← different_loop submission1 submission2 (set_order both) [];
  Ret (DiffResult only1 only2 different).

(** ** colorize_outcome *)

(** The escape character, [\033]. *)
Definition ESC : string := String (Ascii.ascii_of_nat 27) EmptyString.

Definition colorize_outcome (outcome : string) : string :=
  let prefix := "" in
  let prefix :=
    if decide (outcome = "pass") then ESC +:+ "[1;32;5m"
    else if decide (outcome = "fail") then ESC +:+ "[1;31;5m"
    else prefix in
  prefix +:+ outcome +:+ ESC +:+ "[0m".

(** ** main *)

(** Statements run against the lines printed so far; a raised exception
    keeps what was printed before it. The output stream takes every line:
    a [print] that fails on the stream itself (a closed pipe, a character
    the stream cannot encode) is not part of the model. *)
Definition io (A : Type) : Type := list string → result A * list string.

#[global] Instance io_ret : MRet io := λ A a out, (Ret a, out).
#[global] Instance io_bind : MBind io := λ A B f m out,
  match m out with
  | (Ret a, out') => f a out'
  | (Raise e, out') => (Raise e, out')
  | (Unmodelled, out') => (Unmodelled, out')
  end.

Definition print (line : string) : io unit := λ out, (Ret (), out ++ [line]).
Definition lift {A} (r : result A) : io A := λ out, (r, out).

Fixpoint for_each {A} (xs : list A) (body : A → io unit) : io unit :=
  match xs with
  | [] => mret ()
  | x :: rest => body x ;; for_each rest body
  end.

(** [l[i]] on a list. *)
Definition list_getitem (l : list string) (i : nat) : result string :=
  match l !! i with
  | Some x => Ret x
  | None => Raise IndexError
  end.

(** [sorted] on strings: ascending in the order of [str]. *)
Definition sorted (l : list string) : list string := merge_sort String.le l.

Definition usage : string :=
  "Usage: diff_submissions.py submission1.tar.xz submission2.tar.xz".

(** The f-strings of the report. *)
Definition only_header (path : string) : string :=
  "Jobs only in the " +:+ path +:+ ":".
Definition only_line (job outcome : string) : string :=
  "  '" +:+ job +:+ "': '" +:+ colorize_outcome outcome +:+ "'".
Definition different_paths (path1 path2 : string) : string :=
  "  " +:+ path1 +:+ " vs " +:+ path2.
Definition different_line (item : string * (string * string)) : string :=
  let '(job, outcomes) := item in
  "  '" +:+ job +:+ "': '" +:+ outcomes.1 +:+ " ' vs '" +:+ outcomes.2 +:+ "'".

Section program.
(** The archive reader answers from the file system; the order in which a
    set is visited comes from the interpreter. *)
Variable extract_submissions : string → result json.
Variable set_order : gset string → list string.

(** The [if only:] block of one submission. *)
Definition only_section (argv : list string) (n : nat)
    (only : gset string) (submission : gmap string string) : io unit :=
  if decide (only ≠ ∅) then
    path ← lift (list_getitem argv n);
    print (only_header path);;
    for_each (sorted (set_order only)) (λ job,
      outcome ← lift (dict_getitem submission job);
      print (only_line job outcome))
  else mret ().

Definition different_section (argv : list string)
    (different : odict (string * string)) : io unit :=
  if decide (different ≠ []) then
    print "Jobs with different outcomes:";;
    path1 ← lift (list_getitem argv 1);
    path2 ← lift (list_getitem argv 2);
    print (different_paths path1 path2);;
    for_each different (λ item, print (different_line item))
  else mret ().

Definition main (argv : list string) : io unit :=
  if decide (length argv ≠ 3) then lift (Raise (SystemExit usage))
  else
    path1 ← lift (list_getitem argv 1);
    submission1 ← lift (extract_submissions path1 ≫= simplify_submission);
    path2 ← lift (list_getitem argv 2);
    submission2 ← lift (extract_submissions path2 ≫= simplify_submission);
    d ← lift (diff_submissions set_order submission1 submission2);
    only_section argv 1 (only1 d) submission1;;
    only_section argv 2 (only2 d) submission2;;
    different_section argv (different d).

(** What the interpreter makes of a run of [main]: a [SystemExit] that
    carries a string writes it to the error stream and exits with status
    1; any other uncaught exception writes its traceback there and exits
    with status 1 too. *)
Variable traceback : exn → list string.

Record process := Process {
  stdout : list string;
  stderr : list string;
  status : nat;
}.

Definition python (argv : list string) : option process :=
  match main argv [] with
  | (Ret _, out) => Some (Process out [] 0)
  | (Raise (SystemExit msg), out) => Some (Process out [msg] 1)
  | (Raise e, out) => Some (Process out (traceback e) 1)
  | (Unmodelled, _) => None
  end.
End program.

(** ** diff_submissions on the object store

  The two submissions are dicts that the caller holds by reference. Here
  the function runs against the store of objects, so that what it reads,
  allocates and writes is explicit. *)

Module Store.
Definition ref : Type := positive.

Inductive object :=
  | ODict (d : gmap string string)
  | OSet (s : gset string)
  | OPairs (d : odict (string * string)).

Abbreviation store := (gmap ref object).

Definition st (A : Type) : Type := store → result A * store.

#[global] Instance st_ret : MRet st := λ A a h, (Ret a, h).
#[global] Instance st_bind : MBind st := λ A B f m h,
  match m h with
  | (Ret a, h') => f a h'
  | (Raise e, h') => (Raise e, h')
  | (Unmodelled, h') => (Unmodelled, h')
  end.

(** A new object gets a reference that the store does not use. *)
Definition alloc (o : object) : st ref := λ h,
  let l := fresh (dom h) in (Ret l, <[l := o]> h).

(** [set(r.keys())]: a set has no [keys]. *)
Definition set_of_keys (r : ref) : st ref := λ h,
  match h !! r with
  | Some (ODict d) => alloc (OSet (dom d)) h
  | Some (OPairs d) => alloc (OSet (list_to_set (odict_keys d))) h
  | Some (OSet _) => (Raise AttributeError, h)
  | None => (Unmodelled, h)
  end.

(** [a - b] and [a & b] on two sets *)
Definition set_binop (op : gset string → gset string → gset string)
    (a b : ref) : st ref := λ h,
  match h !! a, h !! b with
  | Some (OSet x), Some (OSet y) => alloc (OSet (op x y)) h
  | Some _, Some _ => (Raise TypeError, h)
  | _, _ => (Unmodelled, h)
  end.

(** The elements of a set, in the order a [for] visits them; a dict would
    yield its keys in insertion order, which [ODict] does not record. *)
Definition iter_set (set_order : gset string → list string) (a : ref)
  : st (list string) := λ h,
  match h !! a with
  | Some (OSet x) => (Ret (set_order x), h)
  | Some (OPairs d) => (Ret (odict_keys d), h)
  | Some (ODict _) => (Unmodelled, h)
  | None => (Unmodelled, h)
  end.

(** [r[job]]: a set is not subscriptable; a dict of pairs answers with a
    pair, which is not an outcome. *)
Definition subscript (r : ref) (job : string) : st string := λ h,
  match h !! r with
  | Some (ODict d) => (dict_getitem d job, h)
  | Some (OPairs d) =>
      match odict_get job d with
      | Some _ => (Unmodelled, h)
      | None => (Raise (KeyError job), h)
      end
  | Some (OSet _) => (Raise TypeError, h)
  | None => (Unmodelled, h)
  end.

(** [r[job] = v], on the dict under construction; a set takes no item, and
    a dict of outcomes would from then on hold a pair. *)
Definition setitem (r : ref) (job : string) (v : string * string) : st unit := λ h,
  match h !! r with
  | Some (OPairs d) => (Ret (), <[r := OPairs (odict_set job v d)]> h)
  | Some (OSet _) => (Raise TypeError, h)
  | Some (ODict _) => (Unmodelled, h)
  | None => (Unmodelled, h)
  end.

Fixpoint different_loop_st (submission1 submission2 different : ref)
    (jobs : list string) : st unit :=
  match jobs with
  | [] => mret ()
  | job :: rest =>
      a ← subscript submission1 job;
      b ← subscript submission2 job;
      if decide (a ≠ b) then
        x ← subscript submission1 job;
        y ← subscript submission2 job;
        setitem different job (x, y);;
        different_loop_st submission1 submission2 different rest
      else different_loop_st submission1 submission2 different rest
  end.

Definition diff_submissions_st (set_order : gset string → list string)
    (submission1 submission2 : ref) : st (ref * ref * ref) :=
  jobs1 ← set_of_keys submission1;
  jobs2 ← set_of_keys submission2;
  only1 ← set_binop (∖) jobs1 jobs2;
  only2 ← set_binop (∖) jobs2 jobs1;
  both ← set_binop (∩) jobs1 jobs2;
  different ← alloc (OPairs []);
  jobs ← iter_set set_order both;
  different_loop_st submission1 submission2 different jobs;;
  mret (only1, only2, different).
End Store.

Import Store.

(** * Vocabulary of the statements *)

(** The item that [job] contributes to [different], if any. *)
Definition changed_item (A B : gmap string string) (job : string)
  : option (string * (string * string)) :=
  match A !! job, B !! job with
  | Some a, Some b => if decide (a ≠ b) then Some (job, (a, b)) else None
  | _, _ => None
  end.

Definition changed_items (A B : gmap string string) (jobs : list string)
  : odict (string * string) :=
  omap (changed_item A B) jobs.

(** The keys of the [different] dict of a diff result, as a set. *)
Definition changed_keys (d : diff_result) : gset string :=
  list_to_set (odict_keys (different d)).

Definition exactly_one (P Q R : Prop) : Prop :=
  (P ∧ ¬ Q ∧ ¬ R) ∨ (¬ P ∧ Q ∧ ¬ R) ∨ (¬ P ∧ ¬ Q ∧ R).

(** Scenario A of the specification. *)
Definition scenario_A1 : gmap string string :=
  <["job1" := "pass"]> (<["job2" := "fail"]> ∅).
Definition scenario_A2 : gmap string string :=
  <["job1" := "pass"]> (<["job2" := "pass"]> (<["job3" := "fail"]> ∅)).

Definition color_reset : string := ESC +:+ "[0m".
Definition bright_green_blink : string := ESC +:+ "[1;32;5m".
Definition bright_red_blink : string := ESC +:+ "[1;31;5m".

(** The entry has identifier [p.1] and status [p.2], both strings. *)
Definition holds_entry (entry : json) (p : string * string) : Prop :=
  getitem entry "id" = Ret (JStr p.1) ∧ getitem entry "status" = Ret (JStr p.2).

(** The status of the last pair with identifier [k]. *)
Fixpoint last_status (k : string) (pairs : list (string * string)) : option string :=
  match pairs with
  | [] => None
  | (i, s) :: rest =>
      match last_status k rest with
      | Some t => Some t
      | None => if decide (i = k) then Some s else None
      end
  end.

Definition store_pairs (acc : gmap string string) (pairs : list (string * string))
  : gmap string string :=
  foldl (λ m p, <[p.1 := p.2]> m) acc pairs.

(** A result entry as the archive format has it. *)
Definition entry (id status : string) : json :=
  JObj [("id", JStr id); ("status", JStr status)].

Definition duplicated_record : list (string * json) :=
  [("results", JArr [entry "job1" "pass"; entry "job2" "skip"; entry "job1" "fail"])].

(** The color-start sequence that goes before an outcome, if any. *)
Definition color_start (outcome : string) : string :=
  if decide (outcome = "pass") then bright_green_blink
  else if decide (outcome = "fail") then bright_red_blink
  else "".

(** The lines of an only-in section, as text: nothing for no identifiers,
    else the header that names the archive and, for each identifier in
    turn, one line that shows the identifier in quotes and then, in quotes,
    the outcome the submission gives it, colorized: the outcome between the
    start sequence of its color, if it has one, and the reset sequence. *)
Definition only_block (path : string) (submission : gmap string string)
    (ids : list string) (lines : list string) : Prop :=
  (ids = [] ∧ lines = []) ∨
  (ids ≠ [] ∧ ∃ body,
     lines = ("Jobs only in the " +:+ path +:+ ":") :: body ∧
     Forall2 (λ job line, ∃ outcome,
                submission !! job = Some outcome ∧
                line = "  '" +:+ job +:+ "': '" +:+ colorize_outcome outcome +:+ "'" ∧
                colorize_outcome outcome
                = color_start outcome +:+ outcome +:+ color_reset)
             ids body).

(** The lines of the section of changed outcomes, as text: nothing for no
    item, else its header, the line that names the two archives, and one
    line per item, in the order of the dict, with the identifier and the
    two outcomes as they are. *)
Definition different_block (path1 path2 : string)
    (items : odict (string * string)) (lines : list string) : Prop :=
  (items = [] ∧ lines = []) ∨
  (items ≠ [] ∧
   lines = "Jobs with different outcomes:"
           :: ("  " +:+ path1 +:+ " vs " +:+ path2)
           :: ((λ item : string * (string * string),
                  "  '" +:+ item.1 +:+ "': '" +:+ item.2.1 +:+ " ' vs '"
                  +:+ item.2.2 +:+ "'") <$> items)).

(** Two archives with several identifiers on each side only, out of order
    in the records, one changed outcome and one common outcome. *)
Definition report_files (path : string) : result json :=
  if decide (path = "a.tar.xz") then
    Ret (JObj [("results",
               JArr [entry "zeta" "skip"; entry "job2" "fail"; entry "common" "pass";
                     entry "job10" "pass"; entry "same" "pass"])])
  else if decide (path = "b.tar.xz") then
    Ret (JObj [("results",
               JArr [entry "beta" "fail"; entry "same" "pass"; entry "alpha" "pass";
                     entry "common" "fail"])])
  else Raise (OSError "No such file or directory").

Definition report_A : gmap string string :=
  <["zeta" := "skip"]> (<["job2" := "fail"]> (<["common" := "pass"]>
    (<["job10" := "pass"]> (<["same" := "pass"]> ∅)))).

Definition report_B : gmap string string :=
  <["beta" := "fail"]> (<["same" := "pass"]> (<["alpha" := "pass"]>
    (<["common" := "fail"]> ∅))).

(** The file system of scenario A. *)
Definition scenario_A_files (path : string) : result json :=
  if decide (path = "a.tar.xz") then
    Ret (JObj [("results", JArr [entry "job1" "pass"; entry "job2" "fail"])])
  else if decide (path = "b.tar.xz") then
    Ret (JObj [("results",
               JArr [entry "job1" "pass"; entry "job2" "pass"; entry "job3" "fail"])])
  else Raise (OSError "No such file or directory").

(** A store that holds the two submissions of scenario A. *)
Definition scenario_A_store : store :=
  <[1%positive := ODict scenario_A1]> (<[2%positive := ODict scenario_A2]> ∅).

(** Two entries that answer the same on "id" and on "status". *)
Definition same_fields (e e' : json) : Prop :=
  getitem e "id" = getitem e' "id" ∧ getitem e "status" = getitem e' "status".

Definition is_object (o : json) : Prop := ∃ members, o = JObj members.

(** A value that cannot be a dict key. *)
Definition unhashable (o : json) : Prop :=
  match o with
  | JArr _ | JObj _ => True
  | _ => False
  end.

(** An empty str or an empty dict. *)
Definition empty_container (o : json) : bool :=
  match o with
  | JStr EmptyString | JObj [] => true
  | _ => false
  end.

(** The lines that [main] prints for one only-in block, and for the block
    of changed outcomes. *)
Definition only_lines (path : string) (submission : gmap string string)
    (ids : list string) : list string :=
  if decide (ids = []) then []
  else only_header path
         :: omap (λ job, only_line job <$> submission !! job) ids.

Definition different_lines (path1 path2 : string)
    (items : odict (string * string)) : list string :=
  if decide (items = []) then []
  else "Jobs with different outcomes:" :: different_paths path1 path2
         :: (different_line <$> items).

(** The run of an archive through the reader and the normalizer. *)
Definition pipeline (extract_submissions : string → result json) (path : string)
  : result (gmap string string) :=
  extract_submissions path ≫= simplify_submission.

(** * Properties *)

(** ** The result monad *)

Lemma result_bind_ret {A B} (f : A → result B) (a : A) : Ret a ≫= f = f a.
Proof. reflexivity. Qed.

Lemma dict_getitem_Some (d : gmap string string) (k v : string) :
  d !! k = Some v → dict_getitem d k = Ret v.
Proof. intros E. unfold dict_getitem. by rewrite E. Qed.

Lemma dict_getitem_None (d : gmap string string) (k : string) :
  d !! k = None → dict_getitem d k = Raise (KeyError k).
Proof. intros E. unfold dict_getitem. by rewrite E. Qed.

(** ** Insertion-ordered dicts *)

Section odict.
Context {V : Type}.
Implicit Types d : odict V.

Lemma odict_set_fresh k v d : k ∉ odict_keys d → odict_set k v d = d ++ [(k, v)].
Proof.
  unfold odict_keys. induction d as [|[k' w] d IH]; simpl; [done|].
  rewrite not_elem_of_cons. intros [Hne Hd].
  destruct (decide (k' = k)); [congruence|]. by rewrite IH.
Qed.

Lemma odict_get_Some k v d :
  NoDup (odict_keys d) → odict_get k d = Some v ↔ (k, v) ∈ d.
Proof.
  unfold odict_keys. induction d as [|[k' w] d IH]; simpl.
  - intros _. split; [done|]. by intros ?%elem_of_nil.
  - rewrite NoDup_cons. intros [Hk Hd]. destruct (decide (k' = k)) as [->|Hne].
    + split.
      * intros [= ->]. left.
      * intros [[= ->]|Hin]%elem_of_cons; [done|].
        destruct Hk. apply list_elem_of_fmap. by exists (k, v).
    + rewrite IH by done. split.
      * by right.
      * intros [[= -> ->]|Hin]%elem_of_cons; [congruence|done].
Qed.

Lemma odict_get_None k d : odict_get k d = None ↔ k ∉ odict_keys d.
Proof.
  unfold odict_keys. induction d as [|[k' w] d IH]; simpl.
  - split; [|done]. intros _ ?%elem_of_nil. done.
  - rewrite not_elem_of_cons. destruct (decide (k' = k)) as [->|Hne].
    + split; [done|]. by intros [? _].
    + rewrite IH. naive_solver.
Qed.
End odict.

(** ** The diff engine *)

Section diff_engine.
Implicit Types A B : gmap string string.
Implicit Types jobs : list string.

Lemma changed_item_Some A B job k a b :
  changed_item A B job = Some (k, (a, b)) ↔
  k = job ∧ A !! job = Some a ∧ B !! job = Some b ∧ a ≠ b.
Proof.
  unfold changed_item.
  destruct (A !! job) as [a'|], (B !! job) as [b'|]; try naive_solver.
  case_decide; naive_solver.
Qed.

Lemma elem_of_changed_items A B jobs k a b :
  (k, (a, b)) ∈ changed_items A B jobs ↔
  k ∈ jobs ∧ A !! k = Some a ∧ B !! k = Some b ∧ a ≠ b.
Proof.
  unfold changed_items. rewrite list_elem_of_omap. split.
  - intros (job & Hin & (-> & ? & ? & ?)%changed_item_Some). done.
  - intros (Hin & ? & ? & ?). exists k. split; [done|].
    by apply changed_item_Some.
Qed.

Lemma changed_items_keys A B jobs :
  odict_keys (changed_items A B jobs) `sublist_of` jobs.
Proof.
  unfold odict_keys, changed_items. induction jobs as [|job jobs IH]; simpl; [done|].
  destruct (changed_item A B job) as [[k [a b]]|] eqn:E; simpl.
  - apply changed_item_Some in E as (-> & _). by constructor.
  - by constructor.
Qed.

Lemma changed_items_NoDup A B jobs :
  NoDup jobs → NoDup (odict_keys (changed_items A B jobs)).
Proof. intros. eapply sublist_NoDup; [done|apply changed_items_keys]. Qed.

Lemma changed_items_get A B jobs k a b :
  NoDup jobs →
  odict_get k (changed_items A B jobs) = Some (a, b) ↔
  k ∈ jobs ∧ A !! k = Some a ∧ B !! k = Some b ∧ a ≠ b.
Proof.
  intros Hnd. rewrite odict_get_Some by by apply changed_items_NoDup.
  apply elem_of_changed_items.
Qed.

(** The loop of the comprehension appends, for the jobs it visits, the
    items of the jobs whose outcomes differ; it raises nothing as long as
    the jobs are keys of both submissions. *)
Lemma different_loop_ret A B jobs acc :
  NoDup jobs →
  (∀ k, k ∈ jobs → is_Some (A !! k) ∧ is_Some (B !! k)) →
  (∀ k, k ∈ jobs → k ∉ odict_keys acc) →
  different_loop A B jobs acc = Ret (acc ++ changed_items A B jobs).
Proof.
  revert acc. induction jobs as [|job jobs IH]; intros acc Hnd Hdom Hfresh; simpl.
  - by rewrite app_nil_r.
  - apply NoDup_cons in Hnd as [Hjob Hnd].
    destruct (Hdom job) as [[a Ha] [b Hb]]; [left|].
    rewrite (dict_getitem_Some _ _ _ Ha), (dict_getitem_Some _ _ _ Hb). simpl.
    unfold changed_items. simpl. unfold changed_item at 1. rewrite Ha, Hb.
    destruct (decide (a ≠ b)) as [Hab|Hab]; simpl.
    + rewrite odict_set_fresh by (apply Hfresh; left).
      rewrite IH; [by rewrite <-app_assoc|done|..].
      * intros k Hk. apply Hdom. by right.
      * intros k Hk. unfold odict_keys. rewrite fmap_app.
        rewrite not_elem_of_app. split; [apply Hfresh; by right|].
        simpl. rewrite not_elem_of_cons. split; [|by intros ?%elem_of_nil].
        intros ->. done.
    + apply IH; [done|..].
      * intros k Hk. apply Hdom. by right.
      * intros k Hk. apply Hfresh. by right.
Qed.

Lemma visits_once_NoDup order (X : gset string) :
  visits_once order → NoDup (order X).
Proof. intros H. rewrite (H X). apply NoDup_elements. Qed.

Lemma visits_once_elem_of order (X : gset string) k :
  visits_once order → k ∈ order X ↔ k ∈ X.
Proof. intros H. rewrite (H X). apply elem_of_elements. Qed.

Lemma different_loop_both order A B :
  visits_once order →
  different_loop A B (order (dom A ∩ dom B)) []
  = Ret (changed_items A B (order (dom A ∩ dom B))).
Proof.
  intros Ho. rewrite different_loop_ret; [done|by apply visits_once_NoDup|..].
  - intros k Hk%(visits_once_elem_of _ _ _ Ho).
    apply elem_of_intersection in Hk as [H1 H2].
    by rewrite <-!elem_of_dom.
  - intros k _ ?%elem_of_nil. done.
Qed.

(** The value of [diff_submissions], in closed form. *)
Lemma diff_submissions_ret order A B :
  visits_once order →
  diff_submissions order A B =
    Ret (DiffResult (dom A ∖ dom B) (dom B ∖ dom A)
           (changed_items A B (order (dom A ∩ dom B)))).
Proof.
  intros Ho. unfold diff_submissions. by rewrite different_loop_both.
Qed.
End diff_engine.

Lemma elements_visits_once : visits_once elements.
Proof. intros X. reflexivity. Qed.

Example diff_scenario_A :
  diff_submissions elements scenario_A1 scenario_A2
  = Ret (DiffResult ∅ {["job3"]} [("job2", ("fail", "pass"))]).
Proof. vm_compute. reflexivity. Qed.

(** Outcomes are compared as they are written: a change of case is a change. *)
Example diff_case_sensitive :
  diff_submissions elements {["job" := "pass"]} {["job" := "Pass"]}
  = Ret (DiffResult ∅ ∅ [("job", ("pass", "Pass"))]).
Proof. vm_compute. reflexivity. Qed.

Lemma changed_keys_elem_of order A B k :
  visits_once order →
  k ∈ odict_keys (changed_items A B (order (dom A ∩ dom B))) ↔
  ∃ a b, A !! k = Some a ∧ B !! k = Some b ∧ a ≠ b.
Proof.
  intros Ho. unfold odict_keys. rewrite list_elem_of_fmap. split.
  - intros ([k' [a b]] & -> & Hin). apply elem_of_changed_items in Hin.
    naive_solver.
  - intros (a & b & Ha & Hb & Hab). exists (k, (a, b)). split; [done|].
    apply elem_of_changed_items. split_and!; try done.
    apply (visits_once_elem_of _ _ _ Ho), elem_of_intersection.
    rewrite !elem_of_dom. eauto.
Qed.

Lemma changed_get order A B k a b :
  visits_once order →
  odict_get k (changed_items A B (order (dom A ∩ dom B))) = Some (a, b) ↔
  A !! k = Some a ∧ B !! k = Some b ∧ a ≠ b.
Proof.
  intros Ho. rewrite changed_items_get by by apply visits_once_NoDup.
  rewrite (visits_once_elem_of _ _ _ Ho), elem_of_intersection, !elem_of_dom.
  naive_solver.
Qed.

Lemma elem_of_only (A B : gmap string string) k :
  k ∈ (dom A ∖ dom B : gset string) ↔ is_Some (A !! k) ∧ B !! k = None.
Proof. by rewrite elem_of_difference, elem_of_dom, not_elem_of_dom. Qed.

(** C1. For all normalized submissions A and B the diff returns: as [only1]
    the identifiers of A that B lacks, as [only2] the identifiers of B that
    A lacks, and as [different] the dict (identifiers without repetition)
    that holds [(a, b)] under [k] exactly when A maps [k] to [a], B maps [k]
    to [b] and the strings [a] and [b] are not equal. *)
Theorem diff_submissions_exact order (A B : gmap string string) :
  visits_once order →
  ∃ d, diff_submissions order A B = Ret d ∧
    (∀ k, k ∈ only1 d ↔ is_Some (A !! k) ∧ B !! k = None) ∧
    (∀ k, k ∈ only2 d ↔ is_Some (B !! k) ∧ A !! k = None) ∧
    NoDup (odict_keys (different d)) ∧
    (∀ k a b, odict_get k (different d) = Some (a, b) ↔
              A !! k = Some a ∧ B !! k = Some b ∧ a ≠ b).
Proof.
  intros Ho. eexists. split; [by apply diff_submissions_ret|]. simpl.
  split_and!.
  - intros k. apply elem_of_only.
  - intros k. apply elem_of_only.
  - by apply changed_items_NoDup, visits_once_NoDup.
  - intros k a b. by apply changed_get.
Qed.

Lemma diff_submissions_exact_witness :
  ∃ d, diff_submissions elements scenario_A1 scenario_A2 = Ret d ∧
    (∀ k, k ∈ only1 d ↔ is_Some (scenario_A1 !! k) ∧ scenario_A2 !! k = None) ∧
    (∀ k, k ∈ only2 d ↔ is_Some (scenario_A2 !! k) ∧ scenario_A1 !! k = None) ∧
    NoDup (odict_keys (different d)) ∧
    (∀ k a b, odict_get k (different d) = Some (a, b) ↔
              scenario_A1 !! k = Some a ∧ scenario_A2 !! k = Some b ∧ a ≠ b).
Proof. apply (diff_submissions_exact elements). intros X. reflexivity. Defined.

(** C4. The three parts of a diff result do not overlap, and every
    identifier of A is in exactly one of: [only1], the keys of [different],
    the identifiers that both submissions map to the same outcome. *)
Theorem diff_submissions_partition order (A B : gmap string string) :
  visits_once order →
  ∃ d, diff_submissions order A B = Ret d ∧
    only1 d ∩ only2 d = ∅ ∧
    only1 d ∩ changed_keys d = ∅ ∧
    only2 d ∩ changed_keys d = ∅ ∧
    (∀ k, k ∈ dom A →
       exactly_one (k ∈ only1 d) (k ∈ changed_keys d)
                   (∃ v, A !! k = Some v ∧ B !! k = Some v)).
Proof.
  intros Ho. eexists. split; [by apply diff_submissions_ret|].
  unfold changed_keys. simpl.
  assert (Hkeys : ∀ k,
    k ∈ (list_to_set (odict_keys (changed_items A B (order (dom A ∩ dom B))))
          : gset string) ↔
    ∃ a b, A !! k = Some a ∧ B !! k = Some b ∧ a ≠ b).
  { intros k. rewrite elem_of_list_to_set. by apply changed_keys_elem_of. }
  split_and!.
  - set_solver.
  - apply set_eq. intros k. rewrite elem_of_intersection, Hkeys, elem_of_only.
    split; [|by intros ?%not_elem_of_empty]. naive_solver.
  - apply set_eq. intros k. rewrite elem_of_intersection, Hkeys, elem_of_only.
    split; [|by intros ?%not_elem_of_empty]. naive_solver.
  - intros k [a Ha]%elem_of_dom. unfold exactly_one. rewrite Hkeys, elem_of_only.
    destruct (B !! k) as [b|] eqn:Hb.
    + destruct (decide (a = b)) as [->|Hab].
      * right. right. naive_solver.
      * right. left. naive_solver.
    + left. naive_solver.
Qed.

Lemma diff_submissions_partition_witness :
  ∃ d, diff_submissions elements scenario_A1 scenario_A2 = Ret d ∧
    only1 d ∩ only2 d = ∅ ∧
    only1 d ∩ changed_keys d = ∅ ∧
    only2 d ∩ changed_keys d = ∅ ∧
    (∀ k, k ∈ dom scenario_A1 →
       exactly_one (k ∈ only1 d) (k ∈ changed_keys d)
                   (∃ v, scenario_A1 !! k = Some v ∧ scenario_A2 !! k = Some v)).
Proof. apply (diff_submissions_partition elements). intros X. reflexivity. Defined.

(** C5. Swapping the two submissions swaps [only1] with [only2], keeps the
    set of keys of [different] and reverses each of its pairs, whatever the
    orders in which the two runs visit their sets. *)
Theorem diff_submissions_antisymmetric order order' (A B : gmap string string) :
  visits_once order → visits_once order' →
  ∃ d d', diff_submissions order A B = Ret d ∧
    diff_submissions order' B A = Ret d' ∧
    only1 d = only2 d' ∧
    only2 d = only1 d' ∧
    changed_keys d = changed_keys d' ∧
    (∀ k a b, odict_get k (different d) = Some (a, b) ↔
              odict_get k (different d') = Some (b, a)).
Proof.
  intros Ho Ho'. do 2 eexists.
  split; [by apply diff_submissions_ret|].
  split; [by apply diff_submissions_ret|].
  unfold changed_keys. simpl. split_and!; [done..| |].
  - apply set_eq. intros k. rewrite !elem_of_list_to_set.
    rewrite !changed_keys_elem_of by done. naive_solver.
  - intros k a b. rewrite !changed_get by done. naive_solver.
Qed.

Lemma diff_submissions_antisymmetric_witness :
  ∃ d d', diff_submissions elements scenario_A1 scenario_A2 = Ret d ∧
    diff_submissions elements scenario_A2 scenario_A1 = Ret d' ∧
    only1 d = only2 d' ∧
    only2 d = only1 d' ∧
    changed_keys d = changed_keys d' ∧
    (∀ k a b, odict_get k (different d) = Some (a, b) ↔
              odict_get k (different d') = Some (b, a)).
Proof.
  apply (diff_submissions_antisymmetric elements elements); intros X; reflexivity.
Defined.

(** C6. On any two normalized submissions the diff returns a result, it
    raises nothing; the result is a function of the two mappings (only the
    order of the items of [different] follows the order in which the set is
    visited); and the diff of two empty mappings has three empty parts. *)
Theorem diff_submissions_total order (A B : gmap string string) :
  visits_once order →
  (∃ d, diff_submissions order A B = Ret d) ∧
  (∀ order', visits_once order' →
     ∃ d d', diff_submissions order A B = Ret d ∧
       diff_submissions order' A B = Ret d' ∧
       only1 d = only1 d' ∧ only2 d = only2 d' ∧
       ∀ k, odict_get k (different d) = odict_get k (different d')) ∧
  diff_submissions order ∅ ∅ = Ret (DiffResult ∅ ∅ []).
Proof.
  intros Ho. split_and!.
  - eexists. by apply diff_submissions_ret.
  - intros order' Ho'. do 2 eexists.
    split; [by apply diff_submissions_ret|].
    split; [by apply diff_submissions_ret|].
    simpl. split_and!; [done..|]. intros k.
    apply option_eq. intros [a b]. rewrite !changed_get by done. done.
  - rewrite diff_submissions_ret by done. rewrite !dom_empty_L.
    assert (order (∅ ∩ ∅) = []) as ->; [|by rewrite difference_diag_L].
    apply Permutation_nil_r. rewrite (Ho _).
    by rewrite intersection_empty_l_L, elements_empty.
Qed.

Lemma diff_submissions_total_witness :
  (∃ d, diff_submissions elements scenario_A1 scenario_A2 = Ret d) ∧
  (∀ order', visits_once order' →
     ∃ d d', diff_submissions elements scenario_A1 scenario_A2 = Ret d ∧
       diff_submissions order' scenario_A1 scenario_A2 = Ret d' ∧
       only1 d = only1 d' ∧ only2 d = only2 d' ∧
       ∀ k, odict_get k (different d) = odict_get k (different d')) ∧
  diff_submissions elements ∅ ∅ = Ret (DiffResult ∅ ∅ []).
Proof. apply (diff_submissions_total elements). intros X. reflexivity. Defined.

(** ** The colorizer *)

(** C2, as stated, fails: an outcome that is neither "pass" nor "fail" does
    not come back unmodified. *)
Lemma colorize_outcome_other_modified :
  "skip" ≠ "pass" ∧ "skip" ≠ "fail" ∧ colorize_outcome "skip" ≠ "skip".
Proof. split_and!; discriminate. Qed.

(** C2, amended. "pass" is wrapped in the bright-green-blink start sequence
    and the reset sequence, "fail" in the bright-red-blink start sequence
    and the reset sequence; any other outcome gets no start sequence and is
    followed by the reset sequence. *)
Theorem colorize_outcome_cases (s : string) :
  (s = "pass" → colorize_outcome s = bright_green_blink +:+ s +:+ color_reset) ∧
  (s = "fail" → colorize_outcome s = bright_red_blink +:+ s +:+ color_reset) ∧
  (s ≠ "pass" → s ≠ "fail" → colorize_outcome s = s +:+ color_reset).
Proof.
  unfold colorize_outcome. split_and!.
  - intros ->. reflexivity.
  - intros ->. reflexivity.
  - intros Hp Hf. rewrite !decide_False by done. reflexivity.
Qed.

Lemma colorize_outcome_cases_witness :
  colorize_outcome "pass" = bright_green_blink +:+ "pass" +:+ color_reset ∧
  colorize_outcome "fail" = bright_red_blink +:+ "fail" +:+ color_reset ∧
  colorize_outcome "skip" = "skip" +:+ color_reset.
Proof.
  split_and!.
  - apply (colorize_outcome_cases "pass"). reflexivity.
  - apply (colorize_outcome_cases "fail"). reflexivity.
  - apply (colorize_outcome_cases "skip"); discriminate.
Defined.

(** ** The normalizer *)

Section normalizer.
Implicit Types pairs : list (string * string).
Implicit Types acc m : gmap string string.

Lemma simplify_loop_ret entries pairs acc :
  Forall2 holds_entry entries pairs →
  simplify_loop entries acc = Ret (store_pairs acc pairs).
Proof.
  intros H. revert acc. induction H as [|entry [i s] entries pairs [Hi Hs] _ IH];
    intros acc; simpl; [done|].
  simpl in Hi, Hs. rewrite Hi. simpl. rewrite Hs. simpl. apply IH.
Qed.

(** The loop stops at the first entry that lacks a field, with the
    [KeyError] of the field looked up first. *)
Lemma simplify_loop_raise good pairs bad rest acc key :
  Forall2 holds_entry good pairs →
  (getitem bad "id" = Raise (KeyError key) ∨
   (∃ v, getitem bad "id" = Ret v) ∧ getitem bad "status" = Raise (KeyError key)) →
  simplify_loop (good ++ bad :: rest) acc = Raise (KeyError key).
Proof.
  intros H. revert acc. induction H as [|entry [i s] entries pairs [Hi Hs] _ IH];
    intros acc Hbad; simpl.
  - destruct Hbad as [-> | [[v ->] Hst]]; [done|]. simpl. by rewrite Hst.
  - simpl in Hi, Hs. rewrite Hi. simpl. rewrite Hs. simpl. by apply IH.
Qed.

Lemma store_pairs_lookup acc pairs k :
  store_pairs acc pairs !! k =
  match last_status k pairs with Some s => Some s | None => acc !! k end.
Proof.
  unfold store_pairs. revert acc.
  induction pairs as [|[i s] pairs IH]; intros acc; simpl; [done|].
  rewrite IH. destruct (last_status k pairs); [done|].
  rewrite lookup_insert. by destruct (decide (i = k)).
Qed.

Lemma last_status_None k pairs :
  last_status k pairs = None ↔ ∀ j s, pairs !! j = Some (k, s) → False.
Proof.
  induction pairs as [|[i0 s0] pairs IH]; simpl.
  - split; [|done]. by intros _ j s.
  - destruct (last_status k pairs) as [t|].
    + split; [done|]. intros Hno. assert (Some t = None) as [=].
      apply IH. intros j s Hj. by apply (Hno (S j) s).
    + destruct (decide (i0 = k)) as [->|Hne].
      * split; [done|]. intros Hno. destruct (Hno 0 s0). done.
      * split; [|done]. intros _ [|j] s Hj; simpl in Hj; [congruence|].
        by eapply (proj1 IH).
Qed.

Lemma last_status_Some k s pairs :
  last_status k pairs = Some s ↔
  ∃ i, pairs !! i = Some (k, s) ∧
       ∀ j s', i < j → pairs !! j = Some (k, s') → False.
Proof.
  split.
  - revert s. induction pairs as [|[i0 s0] pairs IH]; intros s; simpl; [done|].
    destruct (last_status k pairs) as [t|] eqn:E.
    + intros [= ->]. destruct (IH _ eq_refl) as (i & Hi & Hlast).
      exists (S i). split; [done|]. intros [|j] s' Hj; [lia|].
      simpl. apply Hlast. lia.
    + destruct (decide (i0 = k)) as [->|Hne]; [|done]. intros [= ->].
      exists 0. split; [done|]. intros [|j] s' Hj; [lia|]. simpl.
      by apply (proj1 (last_status_None _ _) E).
  - intros (i & Hi & Hlast). revert i Hi Hlast.
    induction pairs as [|[i0 s0] pairs IH]; intros [|i] Hi Hlast;
      simpl in *; try done.
    + simplify_eq. rewrite (proj2 (last_status_None k pairs)).
      * by rewrite decide_True.
      * intros j s' Hj. apply (Hlast (S j) s'); [lia|done].
    + rewrite (IH i); [done..|].
      intros j s' Hj. apply (Hlast (S j) s'). lia.
Qed.

Lemma last_status_elem_of k s pairs :
  last_status k pairs = Some s → (k, s) ∈ pairs.
Proof.
  intros (i & Hi & _)%last_status_Some. by eapply list_elem_of_lookup_2.
Qed.

Lemma last_status_is_Some k pairs :
  is_Some (last_status k pairs) ↔ k ∈ pairs.*1.
Proof.
  rewrite <-not_eq_None_Some, last_status_None. split.
  - intros Hex. destruct (decide (k ∈ pairs.*1)) as [|Hno]; [done|].
    destruct Hex. intros j s Hj. apply Hno, list_elem_of_fmap.
    exists (k, s). split; [done|]. by eapply list_elem_of_lookup_2.
  - intros ([k' s] & -> & [j Hj]%list_elem_of_lookup_1)%list_elem_of_fmap Hno.
    by apply (Hno j s).
Qed.

(** The value of [simplify_submission] on a record of the documented
    shape. *)
Lemma simplify_submission_ret members entries pairs :
  members_get "results" members = Some (JArr entries) →
  Forall2 holds_entry entries pairs →
  simplify_submission (JObj members) = Ret (store_pairs ∅ pairs).
Proof.
  intros Hres Hent. unfold simplify_submission. simpl. rewrite Hres. simpl.
  by apply simplify_loop_ret.
Qed.

Lemma simplify_submission_lookup pairs k :
  store_pairs ∅ pairs !! k = last_status k pairs.
Proof. rewrite store_pairs_lookup. by destruct (last_status k pairs). Qed.
End normalizer.

Example simplify_scenario_A :
  simplify_submission
    (JObj [("title", JStr "session"); ("results", JArr [entry "job1" "pass"; entry "job2" "fail"])])
  = Ret scenario_A1.
Proof. vm_compute. reflexivity. Qed.

Example simplify_missing_results :
  simplify_submission (JObj [("title", JStr "session")]) = Raise (KeyError "results").
Proof. reflexivity. Qed.

Example simplify_missing_both :
  simplify_submission (JObj [("results", JArr [entry "job1" "pass"; JObj []])])
  = Raise (KeyError "id").
Proof. reflexivity. Qed.

(** C3, as stated, fails: a field can be absent without the failure naming
    it. The record [[]] holds no "results" and the entry [null] holds no
    "id", and on both the normalizer raises a [TypeError], which carries no
    field name, not the [KeyError] of the field. *)
Lemma simplify_submission_unnamed_failure :
  ((∀ v, getitem (JArr []) "results" ≠ Ret v) ∧
   simplify_submission (JArr []) = Raise TypeError ∧
   ∀ key, simplify_submission (JArr []) ≠ Raise (KeyError key)) ∧
  ((∀ v, getitem JNull "id" ≠ Ret v) ∧
   simplify_submission (JObj [("results", JArr [JNull])]) = Raise TypeError ∧
   ∀ key, simplify_submission (JObj [("results", JArr [JNull])])
          ≠ Raise (KeyError key)).
Proof. split; split_and!; done. Qed.

(** C3, amended. On a record that is an object: without a "results" field
    the normalizer raises the [KeyError] that names "results"; with a
    "results" list whose entries all hold a string identifier and a string
    status it returns the mapping from identifier to status (the status of
    the last entry with that identifier); and at the first entry, an object,
    that lacks "id", or has "id" and lacks "status", it raises the
    [KeyError] that names this field, and returns no mapping. *)
Theorem simplify_submission_contract (members : list (string * json)) :
  (members_get "results" members = None →
   simplify_submission (JObj members) = Raise (KeyError "results")) ∧
  (∀ entries pairs,
     members_get "results" members = Some (JArr entries) →
     Forall2 holds_entry entries pairs →
     ∃ m, simplify_submission (JObj members) = Ret m ∧
       dom m = list_to_set pairs.*1 ∧
       ∀ k, m !! k = last_status k pairs) ∧
  (∀ good pairs bad rest,
     members_get "results" members = Some (JArr (good ++ JObj bad :: rest)) →
     Forall2 holds_entry good pairs →
     (members_get "id" bad = None →
      simplify_submission (JObj members) = Raise (KeyError "id")) ∧
     (is_Some (members_get "id" bad) → members_get "status" bad = None →
      simplify_submission (JObj members) = Raise (KeyError "status"))).
Proof.
  split_and!.
  - intros Hres. unfold simplify_submission. simpl. by rewrite Hres.
  - intros entries pairs Hres Hent. eexists.
    split; [by eapply simplify_submission_ret|]. split.
    + apply set_eq. intros k.
      rewrite elem_of_dom, simplify_submission_lookup, elem_of_list_to_set.
      apply last_status_is_Some.
    + apply simplify_submission_lookup.
  - intros good pairs bad rest Hres Hgood.
    unfold simplify_submission. simpl. rewrite Hres. simpl. split.
    + intros Hid. apply simplify_loop_raise with pairs; [done|].
      left. simpl. by rewrite Hid.
    + intros [v Hid] Hst. apply simplify_loop_raise with pairs; [done|].
      right. simpl. rewrite Hid, Hst. eauto.
Qed.

Lemma simplify_submission_contract_witness :
  simplify_submission (JObj [("title", JStr "t")]) = Raise (KeyError "results") ∧
  (∃ m, simplify_submission
          (JObj [("results", JArr [entry "job1" "pass"; entry "job2" "fail"])])
        = Ret m ∧
     dom m = list_to_set [("job1", "pass"); ("job2", "fail")].*1 ∧
     ∀ k, m !! k = last_status k [("job1", "pass"); ("job2", "fail")]) ∧
  simplify_submission
    (JObj [("results", JArr [entry "job1" "pass"; JObj [("status", JStr "fail")]])])
  = Raise (KeyError "id") ∧
  simplify_submission
    (JObj [("results", JArr [entry "job1" "pass"; JObj [("id", JNum "7")]])])
  = Raise (KeyError "status").
Proof.
  split_and!.
  - apply (simplify_submission_contract [("title", JStr "t")]). reflexivity.
  - apply (proj1 (proj2 (simplify_submission_contract
             [("results", JArr [entry "job1" "pass"; entry "job2" "fail"])]))
             [entry "job1" "pass"; entry "job2" "fail"]).
    + reflexivity.
    + repeat constructor.
  - apply (proj2 (proj2 (simplify_submission_contract
             [("results", JArr [entry "job1" "pass"; JObj [("status", JStr "fail")]])]))
             [entry "job1" "pass"] [("job1", "pass")] [("status", JStr "fail")] []).
    + reflexivity.
    + repeat constructor.
    + reflexivity.
  - apply (proj2 (proj2 (simplify_submission_contract
             [("results", JArr [entry "job1" "pass"; JObj [("id", JNum "7")]])]))
             [entry "job1" "pass"] [("job1", "pass")] [("id", JNum "7")] []).
    + reflexivity.
    + repeat constructor.
    + simpl. eauto.
    + reflexivity.
Defined.

(** C7. When several entries of a record carry the same identifier, the
    normalized submission maps it to the status of the last of them; every
    identifier of the mapping is the identifier of some entry; and the
    mapping lists each identifier once. *)
Theorem simplify_submission_last_wins (members : list (string * json))
    (entries : list json) (pairs : list (string * string)) :
  members_get "results" members = Some (JArr entries) →
  Forall2 holds_entry entries pairs →
  ∃ m, simplify_submission (JObj members) = Ret m ∧
    (∀ i k s, pairs !! i = Some (k, s) →
       (∀ j s', i < j → pairs !! j = Some (k, s') → False) →
       m !! k = Some s) ∧
    (∀ k, is_Some (m !! k) → k ∈ pairs.*1) ∧
    NoDup (map_to_list m).*1.
Proof.
  intros Hres Hent. eexists. split; [by eapply simplify_submission_ret|].
  split_and!.
  - intros i k s Hi Hlast. rewrite simplify_submission_lookup.
    apply last_status_Some. eauto.
  - intros k. rewrite simplify_submission_lookup. apply last_status_is_Some.
  - apply NoDup_fst_map_to_list.
Qed.

Example simplify_duplicated :
  simplify_submission (JObj duplicated_record)
  = Ret (<["job1" := "fail"]> (<["job2" := "skip"]> ∅)).
Proof. vm_compute. reflexivity. Qed.

Lemma simplify_submission_last_wins_witness :
  ∃ m, simplify_submission (JObj duplicated_record) = Ret m ∧
    (∀ i k s,
       [("job1", "pass"); ("job2", "skip"); ("job1", "fail")] !! i = Some (k, s) →
       (∀ j s', i < j →
          [("job1", "pass"); ("job2", "skip"); ("job1", "fail")] !! j = Some (k, s') →
          False) →
       m !! k = Some s) ∧
    (∀ k, is_Some (m !! k) →
          k ∈ [("job1", "pass"); ("job2", "skip"); ("job1", "fail")].*1) ∧
    NoDup (map_to_list m).*1.
Proof.
  apply (simplify_submission_last_wins duplicated_record
           [entry "job1" "pass"; entry "job2" "skip"; entry "job1" "fail"]).
  - reflexivity.
  - repeat constructor.
Defined.

(** ** The reporter *)

Section reporter.
Variable extract_submissions : string → result json.
Variable set_order : gset string → list string.
Hypothesis set_order_once : visits_once set_order.

Lemma io_bind_lift_ret {A B} (a : A) (f : A → io B) out :
  (lift (Ret a) ≫= f) out = f a out.
Proof. reflexivity. Qed.

Lemma io_bind_print {B} line (f : unit → io B) out :
  (print line ≫= f) out = f () (out ++ [line]).
Proof. reflexivity. Qed.

Lemma io_bind_ret {A B} (m : io A) (f : A → io B) a out out' :
  m out = (Ret a, out') → (m ≫= f) out = f a out'.
Proof. intros E. unfold mbind, io_bind. by rewrite E. Qed.

Lemma colorize_outcome_text (outcome : string) :
  colorize_outcome outcome = color_start outcome +:+ outcome +:+ color_reset.
Proof.
  unfold colorize_outcome, color_start.
  destruct (decide (outcome = "pass")); [done|].
  by destruct (decide (outcome = "fail")).
Qed.

Lemma for_each_only_lines (submission : gmap string string) jobs out :
  (∀ job, job ∈ jobs → is_Some (submission !! job)) →
  ∃ body,
    for_each jobs (λ job,
      outcome ← lift (dict_getitem submission job);
      print (only_line job outcome)) out = (Ret (), out ++ body) ∧
    Forall2 (λ job line, ∃ outcome,
               submission !! job = Some outcome ∧ line = only_line job outcome)
            jobs body.
Proof.
  revert out. induction jobs as [|job jobs IH]; intros out Hdom.
  - exists []. by rewrite app_nil_r.
  - destruct (Hdom job) as [v Hv]; [left|].
    destruct (IH (out ++ [only_line job v])) as (body & Hrun & Hbody).
    { intros j Hj. apply Hdom. by right. }
    exists (only_line job v :: body). split.
    + rewrite <-app_assoc in Hrun. simpl.
      erewrite io_bind_ret; [exact Hrun|].
      by rewrite (dict_getitem_Some _ _ _ Hv).
    + constructor; eauto.
Qed.

Lemma for_each_different_lines (items : odict (string * string)) out :
  for_each items (λ item, print (different_line item)) out
  = (Ret (), out ++ (different_line <$> items)).
Proof.
  revert out. induction items as [|item items IH]; intros out; simpl.
  - by rewrite app_nil_r.
  - rewrite io_bind_print, IH. by rewrite <-app_assoc.
Qed.

Lemma sorted_order_sorted (X : gset string) :
  StronglySorted String.le (sorted (set_order X)).
Proof. apply StronglySorted_merge_sort; apply _. Qed.

Lemma sorted_order_elements (X : gset string) :
  sorted (set_order X) ≡ₚ elements X.
Proof. unfold sorted. by rewrite merge_sort_Permutation. Qed.

Lemma sorted_order_nil (X : gset string) :
  sorted (set_order X) = [] ↔ X = ∅.
Proof.
  rewrite <-Permutation_nil_r, sorted_order_elements, Permutation_nil_r.
  rewrite elements_empty_iff. by unfold_leibniz.
Qed.

Lemma only_section_lines argv n path only (submission : gmap string string) out :
  argv !! n = Some path →
  only ⊆ dom submission →
  ∃ lines,
    only_section set_order argv n only submission out = (Ret (), out ++ lines) ∧
    only_block path submission (sorted (set_order only)) lines.
Proof.
  intros Hpath Hdom. unfold only_section. case_decide as Hne.
  - destruct (for_each_only_lines submission (sorted (set_order only))
                (out ++ [only_header path])) as (body & Hrun & Hbody).
    { intros job Hjob. apply elem_of_dom, Hdom.
      by rewrite sorted_order_elements, elem_of_elements in Hjob. }
    exists (only_header path :: body). split.
    + rewrite <-app_assoc in Hrun.
      unfold list_getitem. by rewrite Hpath, io_bind_lift_ret, io_bind_print.
    + right. split; [by rewrite sorted_order_nil|].
      exists body. split; [reflexivity|].
      eapply Forall2_impl; [exact Hbody|].
      intros job line (outcome & Hout & ->). exists outcome.
      split_and!; [done|reflexivity|apply colorize_outcome_text].
  - exists []. split; [by rewrite app_nil_r|]. left.
    split; [|done]. apply sorted_order_nil.
    by destruct (decide (only = ∅)).
Qed.

Lemma different_section_lines argv0 path1 path2 items out :
  ∃ lines,
    different_section [argv0; path1; path2] items out = (Ret (), out ++ lines) ∧
    different_block path1 path2 items lines.
Proof.
  unfold different_section. case_decide as Hne.
  - exists ("Jobs with different outcomes:" :: different_paths path1 path2
              :: (different_line <$> items)). split.
    + rewrite io_bind_print.
      change (list_getitem [argv0; path1; path2] 1) with (Ret path1).
      change (list_getitem [argv0; path1; path2] 2) with (Ret path2).
      rewrite !io_bind_lift_ret, io_bind_print, for_each_different_lines.
      by rewrite <-!app_assoc.
    + right. split; [done|]. unfold different_paths. do 2 f_equal.
      apply list_fmap_ext. by intros i [job [a b]] _.
  - exists []. split; [by rewrite app_nil_r|]. left.
    split; [|done]. by destruct (decide (items = [])).
Qed.
End reporter.

Lemma only_block_nil path submission ids lines :
  only_block path submission ids lines → lines = [] ↔ ids = [].
Proof. intros [[-> ->]|[Hne (body & -> & _)]]; naive_solver. Qed.

Lemma different_block_nil path1 path2 items lines :
  different_block path1 path2 items lines → lines = [] ↔ items = [].
Proof. intros [[-> ->]|[Hne ->]]; naive_solver. Qed.

(** C8. When both archives are read and normalized, to A and B, the report
    is three blocks in a row. The block of the identifiers only in A is
    empty when there is none; otherwise it is a header and then, for the
    identifiers in ascending order of [str], one line each with the
    colorized outcome A gives it. The block for B is the same on B. The
    block of the changed outcomes is empty when there is none. With nothing
    in any of the three parts nothing is printed at all. *)
Theorem main_report extract_submissions set_order argv0 path1 path2
    (A B : gmap string string) :
  visits_once set_order →
  extract_submissions path1 ≫= simplify_submission = Ret A →
  extract_submissions path2 ≫= simplify_submission = Ret B →
  ∃ d ids1 ids2 sec1 sec2 sec3,
    diff_submissions set_order A B = Ret d ∧
    main extract_submissions set_order [argv0; path1; path2] []
      = (Ret (), sec1 ++ sec2 ++ sec3) ∧
    (StronglySorted String.le ids1 ∧ ids1 ≡ₚ elements (only1 d) ∧
     only_block path1 A ids1 sec1) ∧
    (StronglySorted String.le ids2 ∧ ids2 ≡ₚ elements (only2 d) ∧
     only_block path2 B ids2 sec2) ∧
    different_block path1 path2 (different d) sec3 ∧
    ((sec1 = [] ↔ only1 d = ∅) ∧ (sec2 = [] ↔ only2 d = ∅) ∧
     (sec3 = [] ↔ different d = [])) ∧
    (only1 d = ∅ → only2 d = ∅ → different d = [] → sec1 ++ sec2 ++ sec3 = []).
Proof.
  intros Ho HA HB.
  pose proof (diff_submissions_ret set_order A B Ho) as Hd.
  set (d := DiffResult _ _ _) in Hd.
  destruct (only_section_lines set_order Ho [argv0; path1; path2] 1 path1
              (only1 d) A []) as (sec1 & Hrun1 & Hsec1); [done|set_solver|].
  destruct (only_section_lines set_order Ho [argv0; path1; path2] 2 path2
              (only2 d) B ([] ++ sec1)) as (sec2 & Hrun2 & Hsec2);
    [done|set_solver|].
  destruct (different_section_lines argv0 path1 path2 (different d)
              (([] ++ sec1) ++ sec2)) as (sec3 & Hrun3 & Hsec3).
  exists d, (sorted (set_order (only1 d))), (sorted (set_order (only2 d))),
    sec1, sec2, sec3.
  assert (Hnil1 : sec1 = [] ↔ only1 d = ∅).
  { rewrite (only_block_nil _ _ _ _ Hsec1). by apply sorted_order_nil. }
  assert (Hnil2 : sec2 = [] ↔ only2 d = ∅).
  { rewrite (only_block_nil _ _ _ _ Hsec2). by apply sorted_order_nil. }
  pose proof (different_block_nil _ _ _ _ Hsec3) as Hnil3.
  split_and!; try done.
  - unfold main. rewrite decide_False by (simpl; lia).
    change (list_getitem [argv0; path1; path2] 1) with (Ret path1).
    change (list_getitem [argv0; path1; path2] 2) with (Ret path2).
    rewrite io_bind_lift_ret, HA, io_bind_lift_ret, io_bind_lift_ret, HB,
      io_bind_lift_ret, Hd, io_bind_lift_ret.
    erewrite io_bind_ret by exact Hrun1.
    erewrite io_bind_ret by exact Hrun2.
    rewrite Hrun3. by rewrite <-!app_assoc.
  - by apply sorted_order_sorted.
  - by apply sorted_order_elements.
  - by apply sorted_order_sorted.
  - by apply sorted_order_elements.
  - intros ->%Hnil1 ->%Hnil2 ->%Hnil3. done.
Qed.

Example main_scenario_A :
  main scenario_A_files elements ["diff_submissions.py"; "a.tar.xz"; "b.tar.xz"] []
  = (Ret (),
     [only_header "b.tar.xz"; only_line "job3" "fail";
      "Jobs with different outcomes:"; "  a.tar.xz vs b.tar.xz";
      "  'job2': 'fail ' vs 'pass'"]).
Proof. vm_compute. reflexivity. Qed.

(** Scenario B: two equal submissions print nothing. *)
Example main_scenario_B :
  main scenario_A_files elements ["diff_submissions.py"; "a.tar.xz"; "a.tar.xz"] []
  = (Ret (), []).
Proof. vm_compute. reflexivity. Qed.

(** The report of two archives with several identifiers on each side. *)
Example main_report_files :
  main report_files elements ["diff_submissions.py"; "a.tar.xz"; "b.tar.xz"] []
  = (Ret (),
     ["Jobs only in the a.tar.xz:";
      "  'job10': '" +:+ bright_green_blink +:+ "pass" +:+ color_reset +:+ "'";
      "  'job2': '" +:+ bright_red_blink +:+ "fail" +:+ color_reset +:+ "'";
      "  'zeta': '" +:+ "skip" +:+ color_reset +:+ "'";
      "Jobs only in the b.tar.xz:";
      "  'alpha': '" +:+ bright_green_blink +:+ "pass" +:+ color_reset +:+ "'";
      "  'beta': '" +:+ bright_red_blink +:+ "fail" +:+ color_reset +:+ "'";
      "Jobs with different outcomes:";
      "  a.tar.xz vs b.tar.xz";
      "  'common': 'pass ' vs 'fail'"]).
Proof. vm_compute. reflexivity. Qed.

Lemma main_report_witness :
  ∃ d ids1 ids2 sec1 sec2 sec3,
    diff_submissions elements report_A report_B = Ret d ∧
    main report_files elements ["diff_submissions.py"; "a.tar.xz"; "b.tar.xz"] []
      = (Ret (), sec1 ++ sec2 ++ sec3) ∧
    (StronglySorted String.le ids1 ∧ ids1 ≡ₚ elements (only1 d) ∧
     only_block "a.tar.xz" report_A ids1 sec1) ∧
    (StronglySorted String.le ids2 ∧ ids2 ≡ₚ elements (only2 d) ∧
     only_block "b.tar.xz" report_B ids2 sec2) ∧
    different_block "a.tar.xz" "b.tar.xz" (different d) sec3 ∧
    ((sec1 = [] ↔ only1 d = ∅) ∧ (sec2 = [] ↔ only2 d = ∅) ∧
     (sec3 = [] ↔ different d = [])) ∧
    (only1 d = ∅ → only2 d = ∅ → different d = [] → sec1 ++ sec2 ++ sec3 = []).
Proof.
  apply (main_report report_files elements).
  - intros X. reflexivity.
  - vm_compute. reflexivity.
  - vm_compute. reflexivity.
Defined.

(** C9. Called with a number of positional arguments other than two, the
    program prints nothing on the output stream, writes the usage message
    to the error stream and exits with a status that is not zero. *)
Theorem main_usage extract_submissions set_order traceback (argv : list string) :
  length (tail argv) ≠ 2 →
  ∃ p, python extract_submissions set_order traceback argv = Some p ∧
    stdout p = [] ∧ stderr p = [usage] ∧ status p ≠ 0.
Proof.
  intros Hlen. unfold python, main.
  rewrite decide_True by (destruct argv; simpl in *; lia).
  eexists. split; [reflexivity|]. simpl. split_and!; [done..|lia].
Qed.

Lemma main_usage_witness :
  ∃ p, python scenario_A_files elements (λ _, [])
         ["diff_submissions.py"; "a.tar.xz"] = Some p ∧
    stdout p = [] ∧ stderr p = [usage] ∧ status p ≠ 0.
Proof.
  apply (main_usage scenario_A_files elements (λ _, [])
           ["diff_submissions.py"; "a.tar.xz"]).
  simpl. lia.
Defined.

Section frame.
Implicit Types h : store.

Lemma st_bind_ret {A B} (m : st A) (f : A → st B) a h h' :
  m h = (Ret a, h') → (m ≫= f) h = f a h'.
Proof. intros E. unfold mbind, st_bind. by rewrite E. Qed.

Lemma alloc_run o h :
  ∃ l, alloc o h = (Ret l, <[l := o]> h) ∧ h !! l = None.
Proof.
  exists (fresh (dom h)). split; [done|]. apply not_elem_of_dom, is_fresh.
Qed.

Lemma set_of_keys_run r d h :
  h !! r = Some (ODict d) →
  ∃ l, set_of_keys r h = (Ret l, <[l := OSet (dom d)]> h) ∧ h !! l = None.
Proof. intros E. unfold set_of_keys. rewrite E. apply alloc_run. Qed.

Lemma set_binop_run op a b x y h :
  h !! a = Some (OSet x) → h !! b = Some (OSet y) →
  ∃ l, set_binop op a b h = (Ret l, <[l := OSet (op x y)]> h) ∧ h !! l = None.
Proof. intros Ea Eb. unfold set_binop. rewrite Ea, Eb. apply alloc_run. Qed.

Lemma subscript_run r d job v h :
  h !! r = Some (ODict d) → d !! job = Some v →
  subscript r job h = (Ret v, h).
Proof.
  intros E Ev. unfold subscript. by rewrite E, (dict_getitem_Some _ _ _ Ev).
Qed.

(** The loop writes to the dict under construction and to nothing else;
    what it leaves there is what [different_loop] computes. *)
Lemma different_loop_st_run r1 r2 l A B jobs acc acc' h :
  h !! r1 = Some (ODict A) → h !! r2 = Some (ODict B) →
  h !! l = Some (OPairs acc) →
  different_loop A B jobs acc = Ret acc' →
  different_loop_st r1 r2 l jobs h = (Ret (), <[l := OPairs acc']> h).
Proof.
  revert acc h. induction jobs as [|job jobs IH]; intros acc h H1 H2 Hl.
  - intros [= <-]. by rewrite insert_id.
  - cbn [different_loop different_loop_st].
    destruct (A !! job) as [a|] eqn:Ha;
      [|by rewrite (dict_getitem_None _ _ Ha)].
    destruct (B !! job) as [b|] eqn:Hb;
      [|by rewrite (dict_getitem_Some _ _ _ Ha), (dict_getitem_None _ _ Hb)].
    rewrite !(dict_getitem_Some _ _ _ Ha), !(dict_getitem_Some _ _ _ Hb).
    rewrite !result_bind_ret.
    rewrite (st_bind_ret _ _ a h h) by by eapply subscript_run.
    rewrite (st_bind_ret _ _ b h h) by by eapply subscript_run.
    destruct (decide (a ≠ b)) as [Hab|Hab].
    + intros Hloop.
      rewrite (st_bind_ret _ _ a h h) by by eapply subscript_run.
      rewrite (st_bind_ret _ _ b h h) by by eapply subscript_run.
      assert (l ≠ r1) by congruence. assert (l ≠ r2) by congruence.
      erewrite st_bind_ret; [|unfold setitem; by rewrite Hl].
      erewrite IH; [by rewrite insert_insert_eq| | | |exact Hloop].
      * by rewrite lookup_insert_ne.
      * by rewrite lookup_insert_ne.
      * by rewrite lookup_insert_eq.
    + intros Hloop. by eapply IH.
Qed.

Lemma lookup_insert_fresh h l k (o v : object) :
  h !! k = Some v → h !! l = None → <[l := o]> h !! k = Some v.
Proof. intros Hk Hl. rewrite lookup_insert_ne; [done|congruence]. Qed.

Lemma iter_set_run order a x h :
  h !! a = Some (OSet x) → iter_set order a h = (Ret (order x), h).
Proof. intros E. unfold iter_set. by rewrite E. Qed.
End frame.

Create HintDb store discriminated.
#[global] Hint Resolve lookup_insert_fresh : store.
#[global] Hint Extern 1 (<[?l := _]> _ !! ?l = Some _) =>
  apply lookup_insert_eq : store.

(** C10. Run against a store that holds the two submissions, at [r1] and
    [r2] (which may be one and the same dict), the diff returns references
    to three objects that the store did not hold before, with the values
    that [diff_submissions] computes; every object of the store it
    started from is still there, with the value it had, and so are the
    two submissions. *)
Theorem diff_submissions_frame set_order (h : store) (r1 r2 : ref)
    (A B : gmap string string) :
  visits_once set_order →
  h !! r1 = Some (ODict A) →
  h !! r2 = Some (ODict B) →
  ∃ d l1 l2 l3 h',
    diff_submissions set_order A B = Ret d ∧
    diff_submissions_st set_order r1 r2 h = (Ret (l1, l2, l3), h') ∧
    (∀ l o, h !! l = Some o → h' !! l = Some o) ∧
    (h' !! r1 = Some (ODict A) ∧ h' !! r2 = Some (ODict B)) ∧
    (h !! l1 = None ∧ h !! l2 = None ∧ h !! l3 = None) ∧
    h' !! l1 = Some (OSet (only1 d)) ∧
    h' !! l2 = Some (OSet (only2 d)) ∧
    h' !! l3 = Some (OPairs (different d)).
Proof.
  intros Ho H1 H2.
  destruct (set_of_keys_run r1 A h H1) as (la & Ea & Fa).
  destruct (set_of_keys_run r2 B (<[la := OSet (dom A)]> h))
    as (lb & Eb & Fb); [auto with store|].
  match type of Eb with _ = (_, ?h2) =>
    destruct (set_binop_run (∖) la lb (dom A) (dom B) h2)
      as (l1 & E1 & F1); [eauto with store..|]
  end.
  match type of E1 with _ = (_, ?h3) =>
    destruct (set_binop_run (∖) lb la (dom B) (dom A) h3)
      as (l2 & E2 & F2); [eauto 6 with store..|]
  end.
  match type of E2 with _ = (_, ?h4) =>
    destruct (set_binop_run (∩) la lb (dom A) (dom B) h4)
      as (lc & Ec & Fc); [eauto 7 with store..|]
  end.
  match type of Ec with _ = (_, ?h5) =>
    destruct (alloc_run (OPairs []) h5) as (l3 & E3 & F3)
  end.
  pose proof (different_loop_both set_order A B Ho) as Hloop.
  eexists _, l1, l2, l3, _. split; [by apply diff_submissions_ret|].
  split.
  { unfold diff_submissions_st.
    erewrite st_bind_ret by exact Ea. erewrite st_bind_ret by exact Eb.
    erewrite st_bind_ret by exact E1. erewrite st_bind_ret by exact E2.
    erewrite st_bind_ret by exact Ec. erewrite st_bind_ret by exact E3.
    erewrite st_bind_ret by (apply iter_set_run; eauto 8 with store).
    erewrite st_bind_ret; [reflexivity|].
    eapply different_loop_st_run; [..|exact Hloop]; eauto 10 with store. }
  rewrite insert_insert_eq. simpl. split_and!.
  - intros l o Hl. eauto 10 with store.
  - eauto 10 with store.
  - eauto 10 with store.
  - revert F1. rewrite !lookup_insert_None. tauto.
  - revert F2. rewrite !lookup_insert_None. tauto.
  - revert F3. rewrite !lookup_insert_None. tauto.
  - eauto 10 with store.
  - eauto 10 with store.
  - eauto 10 with store.
Qed.

Example diff_submissions_st_scenario_A :
  (diff_submissions_st elements 1%positive 2%positive scenario_A_store).1 = Ret (5, 6, 8)%positive.
Proof. vm_compute. reflexivity. Qed.

Lemma diff_submissions_frame_witness :
  ∃ d l1 l2 l3 h',
    diff_submissions elements scenario_A1 scenario_A2 = Ret d ∧
    diff_submissions_st elements 1%positive 2%positive scenario_A_store = (Ret (l1, l2, l3), h') ∧
    (∀ l o, scenario_A_store !! l = Some o → h' !! l = Some o) ∧
    (h' !! 1%positive = Some (ODict scenario_A1) ∧
     h' !! 2%positive = Some (ODict scenario_A2)) ∧
    (scenario_A_store !! l1 = None ∧ scenario_A_store !! l2 = None ∧
     scenario_A_store !! l3 = None) ∧
    h' !! l1 = Some (OSet (only1 d)) ∧
    h' !! l2 = Some (OSet (only2 d)) ∧
    h' !! l3 = Some (OPairs (different d)).
Proof.
  apply (diff_submissions_frame elements scenario_A_store 1%positive 2%positive).
  - intros X. reflexivity.
  - reflexivity.
  - reflexivity.
Defined.

(** ** More on the normalizer *)

Section normalizer_more.
Implicit Types pairs : list (string * string).
Implicit Types acc m : gmap string string.

Lemma simplify_loop_same_fields entries entries' acc :
  Forall2 same_fields entries entries' →
  simplify_loop entries acc = simplify_loop entries' acc.
Proof.
  intros H. revert acc.
  induction H as [|e e' es es' [Hi Hs] _ IH]; intros acc; simpl; [done|].
  rewrite Hi, Hs.
  destruct (getitem e' "id") as [i| |]; simpl; [|done..].
  destruct (getitem e' "status") as [st| |]; simpl; [|done..].
  destruct (as_key i) as [k| |]; simpl; [|done..].
  destruct (as_outcome st) as [v| |]; simpl; [|done..].
  apply IH.
Qed.

(** After a run of well-formed entries the loop goes on with what they
    stored. *)
Lemma simplify_loop_prefix good pairs rest acc :
  Forall2 holds_entry good pairs →
  simplify_loop (good ++ rest) acc = simplify_loop rest (store_pairs acc pairs).
Proof.
  intros H. revert acc.
  induction H as [|e [i s] es ps [Hi Hs] _ IH]; intros acc; simpl; [done|].
  simpl in Hi, Hs. rewrite Hi. simpl. rewrite Hs. simpl. apply IH.
Qed.

Lemma last_status_NoDup k s pairs :
  NoDup pairs.*1 → last_status k pairs = Some s ↔ (k, s) ∈ pairs.
Proof.
  intros Hnd. split; [apply last_status_elem_of|].
  intros [i Hi]%list_elem_of_lookup_1. apply last_status_Some.
  exists i. split; [done|]. intros j s' Hlt Hj.
  assert (i = j); [|lia].
  apply (NoDup_lookup _ _ _ k Hnd); rewrite list_lookup_fmap.
  - by rewrite Hi.
  - by rewrite Hj.
Qed.

Lemma store_pairs_dom pairs :
  dom (store_pairs ∅ pairs) = list_to_set pairs.*1.
Proof.
  apply set_eq. intros k.
  rewrite elem_of_dom, simplify_submission_lookup, elem_of_list_to_set.
  apply last_status_is_Some.
Qed.

Lemma size_list_to_set_le (l : list string) :
  size (list_to_set l : gset string) ≤ length l.
Proof.
  induction l as [|x l IH].
  - by rewrite list_to_set_nil, size_empty.
  - rewrite list_to_set_cons. cbn [length].
    pose proof (size_union_alt ({[x]} : gset string) (list_to_set l)) as Hu.
    pose proof (subseteq_size (list_to_set l ∖ {[x]} : gset string)
                  (list_to_set l) ltac:(set_solver)) as Hd.
    rewrite size_singleton in Hu. lia.
Qed.

Lemma size_list_to_set_NoDup (l : list string) :
  size (list_to_set l : gset string) = length l ↔ NoDup l.
Proof.
  split; [|apply size_list_to_set].
  induction l as [|x l IH]; [constructor|].
  rewrite list_to_set_cons. cbn [length].
  intros Hsize. pose proof (size_list_to_set_le l) as Hle.
  destruct (decide (x ∈ l)) as [Hin|Hin].
  - rewrite (subseteq_union_1_L ({[x]} : gset string)) in Hsize; [lia|].
    apply singleton_subseteq_l. by apply elem_of_list_to_set.
  - rewrite size_union, size_singleton in Hsize.
    + constructor; [done|]. apply IH. lia.
    + apply disjoint_singleton_l. by rewrite elem_of_list_to_set.
Qed.
End normalizer_more.

(** X1. Only "results", and in each entry only "id" and "status", are read:
    two records whose entries answer the same on these two fields are
    normalized alike, whether to a mapping or to an exception. *)
Theorem simplify_submission_other_fields (members members' : list (string * json))
    (entries entries' : list json) :
  members_get "results" members = Some (JArr entries) →
  members_get "results" members' = Some (JArr entries') →
  Forall2 same_fields entries entries' →
  simplify_submission (JObj members) = simplify_submission (JObj members').
Proof.
  intros Hres Hres' Hsame. unfold simplify_submission. simpl.
  rewrite Hres, Hres'. simpl. by apply simplify_loop_same_fields.
Qed.

Lemma simplify_submission_other_fields_witness :
  simplify_submission
    (JObj [("title", JStr "session");
           ("results", JArr [JObj [("id", JStr "job1"); ("duration", JNum "1.5");
                                   ("status", JStr "pass")];
                             JObj [("comments", JNull)]])])
  = simplify_submission
      (JObj [("results", JArr [entry "job1" "pass"; JObj []])]).
Proof.
  apply (simplify_submission_other_fields _ _
           [JObj [("id", JStr "job1"); ("duration", JNum "1.5"); ("status", JStr "pass")];
            JObj [("comments", JNull)]]
           [entry "job1" "pass"; JObj []]).
  - reflexivity.
  - reflexivity.
  - repeat constructor.
Defined.

(** X2. When the identifiers of the entries are pairwise different, the order of
    the entries does not matter: a record with the same entries in another
    order is normalized to the same mapping. *)
Theorem simplify_submission_permutation (members members' : list (string * json))
    (entries entries' : list json) (pairs pairs' : list (string * string)) :
  members_get "results" members = Some (JArr entries) →
  members_get "results" members' = Some (JArr entries') →
  Forall2 holds_entry entries pairs →
  Forall2 holds_entry entries' pairs' →
  pairs ≡ₚ pairs' →
  NoDup pairs.*1 →
  ∃ m, simplify_submission (JObj members) = Ret m ∧
       simplify_submission (JObj members') = Ret m.
Proof.
  intros Hres Hres' Hent Hent' Hperm Hnd.
  exists (store_pairs ∅ pairs). split; [by eapply simplify_submission_ret|].
  rewrite (simplify_submission_ret _ _ _ Hres' Hent'). f_equal.
  apply map_eq. intros k. rewrite !simplify_submission_lookup.
  assert (Hnd' : NoDup pairs'.*1) by by rewrite <-Hperm.
  apply option_eq. intros s.
  rewrite (last_status_NoDup k s pairs Hnd), (last_status_NoDup k s pairs' Hnd').
  by rewrite Hperm.
Qed.

Lemma simplify_submission_permutation_witness :
  ∃ m, simplify_submission
         (JObj [("results", JArr [entry "job1" "pass"; entry "job2" "fail"])]) = Ret m ∧
       simplify_submission
         (JObj [("results", JArr [entry "job2" "fail"; entry "job1" "pass"])]) = Ret m.
Proof.
  apply (simplify_submission_permutation _ _
           [entry "job1" "pass"; entry "job2" "fail"]
           [entry "job2" "fail"; entry "job1" "pass"]
           [("job1", "pass"); ("job2", "fail")]
           [("job2", "fail"); ("job1", "pass")]).
  - reflexivity.
  - reflexivity.
  - repeat constructor.
  - repeat constructor.
  - apply perm_swap.
  - apply (bool_decide_unpack _). vm_compute. exact I.
Defined.

(** X3. A normalized submission has at most as many identifiers as the record
    has entries, and as many exactly when no identifier is repeated. *)
Theorem simplify_submission_size (members : list (string * json))
    (entries : list json) (pairs : list (string * string)) :
  members_get "results" members = Some (JArr entries) →
  Forall2 holds_entry entries pairs →
  ∃ m, simplify_submission (JObj members) = Ret m ∧
       size m ≤ length entries ∧
       (size m = length entries ↔ NoDup pairs.*1).
Proof.
  intros Hres Hent. eexists. split; [by eapply simplify_submission_ret|].
  rewrite <-size_dom, store_pairs_dom, (Forall2_length _ _ _ Hent).
  rewrite <-(length_fmap fst pairs). split.
  - apply size_list_to_set_le.
  - apply size_list_to_set_NoDup.
Qed.

Lemma simplify_submission_size_witness :
  ∃ m, simplify_submission (JObj duplicated_record) = Ret m ∧
       size m ≤ 3 ∧
       (size m = 3 ↔ NoDup [("job1", "pass"); ("job2", "skip"); ("job1", "fail")].*1).
Proof.
  apply (simplify_submission_size duplicated_record
           [entry "job1" "pass"; entry "job2" "skip"; entry "job1" "fail"]).
  - reflexivity.
  - repeat constructor.
Defined.

(** X4. Entries written later override: the record that lists the entries of
    one record and then those of a second is normalized to the mapping of
    the second, completed by the mapping of the first. *)
Theorem simplify_submission_app (members1 members2 members : list (string * json))
    (entries1 entries2 : list json) (pairs1 pairs2 : list (string * string)) :
  members_get "results" members1 = Some (JArr entries1) →
  members_get "results" members2 = Some (JArr entries2) →
  members_get "results" members = Some (JArr (entries1 ++ entries2)) →
  Forall2 holds_entry entries1 pairs1 →
  Forall2 holds_entry entries2 pairs2 →
  ∃ m1 m2, simplify_submission (JObj members1) = Ret m1 ∧
           simplify_submission (JObj members2) = Ret m2 ∧
           simplify_submission (JObj members) = Ret (m2 ∪ m1).
Proof.
  intros Hres1 Hres2 Hres Hent1 Hent2. do 2 eexists.
  split; [by eapply simplify_submission_ret|].
  split; [by eapply simplify_submission_ret|].
  rewrite (simplify_submission_ret _ _ (pairs1 ++ pairs2) Hres)
    by by apply Forall2_app.
  f_equal. apply map_eq. intros k.
  unfold store_pairs at 1. rewrite foldl_app.
  fold (store_pairs ∅ pairs1). fold (store_pairs (store_pairs ∅ pairs1) pairs2).
  rewrite store_pairs_lookup, lookup_union, !simplify_submission_lookup.
  destruct (last_status k pairs2), (last_status k pairs1); done.
Qed.

Lemma simplify_submission_app_witness :
  ∃ m1 m2,
    simplify_submission
      (JObj [("results", JArr [entry "job1" "pass"; entry "job2" "skip"])]) = Ret m1 ∧
    simplify_submission
      (JObj [("results", JArr [entry "job1" "fail"])]) = Ret m2 ∧
    simplify_submission (JObj duplicated_record) = Ret (m2 ∪ m1).
Proof.
  apply (simplify_submission_app _ _ duplicated_record
           [entry "job1" "pass"; entry "job2" "skip"] [entry "job1" "fail"]
           [("job1", "pass"); ("job2", "skip")] [("job1", "fail")]).
  - reflexivity.
  - reflexivity.
  - reflexivity.
  - repeat constructor.
  - repeat constructor.
Defined.

Lemma members_keys_nil members : members_keys members = [] → members = [].
Proof.
  destruct members as [|[k v] members]; [done|].
  unfold members_keys. rewrite fmap_cons. cbn [first_occurrences].
  destruct (decide (k ∈ [])) as [Hin|_]; [|done]. by apply elem_of_nil in Hin.
Qed.

(** X5. A record that is not an object is refused with a [TypeError]. So is a
    "results" value that is not a list, unless it is an empty str or an
    empty dict: these are taken for no entries at all. *)
Theorem simplify_submission_shape (submission : json) :
  (¬ is_object submission → simplify_submission submission = Raise TypeError) ∧
  (∀ members results,
     submission = JObj members →
     members_get "results" members = Some results →
     (∀ entries, results ≠ JArr entries) →
     simplify_submission submission =
       if empty_container results then Ret ∅ else Raise TypeError).
Proof.
  split.
  - intros Hobj. destruct submission; try done. destruct Hobj. by eexists.
  - intros members results -> Hres Hlist. unfold simplify_submission. simpl.
    rewrite Hres. simpl. destruct results as [|b|n|s|items|ms]; try done.
    + destruct s as [|c s]; done.
    + by destruct (Hlist items).
    + destruct ms as [|[k v] ms]; [done|]. simpl.
      destruct (members_keys ((k, v) :: ms)) as [|k' ks] eqn:E; [|done].
      by apply members_keys_nil in E.
Qed.

Lemma simplify_submission_shape_witness :
  simplify_submission (JArr []) = Raise TypeError ∧
  simplify_submission (JObj [("results", JStr "")]) = Ret ∅ ∧
  simplify_submission (JObj [("results", JObj [("job1", JStr "pass")])])
  = Raise TypeError.
Proof.
  split_and!.
  - apply (simplify_submission_shape (JArr [])). intros [ms [=]].
  - apply (proj2 (simplify_submission_shape (JObj [("results", JStr "")]))
             [("results", JStr "")] (JStr "")); [reflexivity..|]. by intros.
  - apply (proj2 (simplify_submission_shape
                    (JObj [("results", JObj [("job1", JStr "pass")])]))
             [("results", JObj [("job1", JStr "pass")])]
             (JObj [("job1", JStr "pass")])); [reflexivity..|]. by intros.
Defined.

(** X6. After well-formed entries, an entry that is not an object, or whose
    identifier is a list or an object while its status is there, stops the
    normalizer with a [TypeError]. *)
Theorem simplify_submission_entry_shape (members : list (string * json))
    (good : list json) (pairs : list (string * string)) (bad : json)
    (rest : list json) :
  members_get "results" members = Some (JArr (good ++ bad :: rest)) →
  Forall2 holds_entry good pairs →
  (¬ is_object bad → simplify_submission (JObj members) = Raise TypeError) ∧
  (∀ fields id status,
     bad = JObj fields →
     members_get "id" fields = Some id →
     members_get "status" fields = Some status →
     unhashable id →
     simplify_submission (JObj members) = Raise TypeError).
Proof.
  intros Hres Hgood. unfold simplify_submission. simpl. rewrite Hres. simpl.
  rewrite (simplify_loop_prefix _ _ _ _ Hgood). split.
  - intros Hobj. destruct bad; try done. destruct Hobj. by eexists.
  - intros fields id status -> Hid Hst Hun. simpl. rewrite Hid, Hst. simpl.
    by destruct id.
Qed.

Lemma simplify_submission_entry_shape_witness :
  simplify_submission (JObj [("results", JArr [entry "job1" "pass"; JStr "job2"])])
  = Raise TypeError ∧
  simplify_submission
    (JObj [("results",
            JArr [entry "job1" "pass";
                  JObj [("id", JArr [JStr "job2"]); ("status", JStr "fail")]])])
  = Raise TypeError.
Proof.
  split.
  - apply (proj1 (simplify_submission_entry_shape
                    [("results", JArr [entry "job1" "pass"; JStr "job2"])]
                    [entry "job1" "pass"] [("job1", "pass")] (JStr "job2") []
                    eq_refl ltac:(repeat constructor))).
    intros [ms [=]].
  - apply (proj2 (simplify_submission_entry_shape
                    [("results",
                      JArr [entry "job1" "pass";
                            JObj [("id", JArr [JStr "job2"]); ("status", JStr "fail")]])]
                    [entry "job1" "pass"] [("job1", "pass")]
                    (JObj [("id", JArr [JStr "job2"]); ("status", JStr "fail")]) []
                    eq_refl ltac:(repeat constructor))
             [("id", JArr [JStr "job2"]); ("status", JStr "fail")]
             (JArr [JStr "job2"]) (JStr "fail")); [reflexivity..|exact I].
Defined.

(** ** More on the diff engine *)

Lemma visits_once_empty order : visits_once order → order ∅ = [].
Proof.
  intros Ho. apply Permutation_nil_r. by rewrite (Ho ∅), elements_empty.
Qed.

Lemma changed_items_nil (A B : gmap string string) jobs :
  changed_items A B jobs = [] ↔
  ∀ k a b, k ∈ jobs → A !! k = Some a → B !! k = Some b → a = b.
Proof.
  split.
  - intros E k a b Hk Ha Hb. destruct (decide (a = b)) as [|Hne]; [done|].
    assert ((k, (a, b)) ∈ changed_items A B jobs) as Hin
      by by apply elem_of_changed_items.
    rewrite E in Hin. by apply elem_of_nil in Hin.
  - intros Hsame. destruct (changed_items A B jobs) as [|[k [a b]] items] eqn:E;
      [done|].
    assert ((k, (a, b)) ∈ changed_items A B jobs) as Hin by (rewrite E; left).
    apply elem_of_changed_items in Hin as (Hk & Ha & Hb & Hne).
    destruct Hne. by eapply Hsame.
Qed.

Lemma changed_items_keys_filter (A B : gmap string string) jobs :
  (∀ k, k ∈ jobs → is_Some (A !! k) ∧ is_Some (B !! k)) →
  odict_keys (changed_items A B jobs) = filter (λ k, A !! k ≠ B !! k) jobs.
Proof.
  unfold odict_keys, changed_items.
  induction jobs as [|job jobs IH]; intros Hdom; [done|].
  destruct (Hdom job) as [[a Ha] [b Hb]]; [left|].
  rewrite filter_cons. simpl. unfold changed_item at 1. rewrite Ha, Hb.
  rewrite <-IH by (intros k Hk; apply Hdom; by right).
  destruct (decide (a ≠ b)) as [Hab|Hab].
  - rewrite decide_True by congruence. done.
  - rewrite decide_False; [done|]. intros Hne. apply Hab. congruence.
Qed.

Lemma diff_parts_empty_iff order (A B : gmap string string) :
  visits_once order →
  dom A ∖ dom B = (∅ : gset string) ∧ dom B ∖ dom A = (∅ : gset string) ∧
  changed_items A B (order (dom A ∩ dom B)) = [] ↔ A = B.
Proof.
  intros Ho. split.
  - intros (H1 & H2 & H3). apply map_eq. intros k.
    destruct (A !! k) as [a|] eqn:Ha, (B !! k) as [b|] eqn:Hb; [|exfalso..|done].
    + f_equal. apply (proj1 (changed_items_nil _ _ _) H3 k); [|done..].
      apply (visits_once_elem_of _ _ _ Ho), elem_of_intersection.
      rewrite !elem_of_dom. eauto.
    + assert (k ∈ dom A ∖ dom B) as Hin by (by apply elem_of_only; eauto).
      rewrite H1 in Hin. by apply not_elem_of_empty in Hin.
    + assert (k ∈ dom B ∖ dom A) as Hin by (by apply elem_of_only; eauto).
      rewrite H2 in Hin. by apply not_elem_of_empty in Hin.
  - intros <-. rewrite difference_diag_L. split_and!; [done..|].
    apply changed_items_nil. congruence.
Qed.

(** X7. The diff has three empty parts exactly when the two submissions are the
    same mapping. *)
Theorem diff_submissions_empty_iff order (A B : gmap string string) :
  visits_once order →
  diff_submissions order A B = Ret (DiffResult ∅ ∅ []) ↔ A = B.
Proof.
  intros Ho. rewrite diff_submissions_ret, <-(diff_parts_empty_iff order) by done.
  split.
  - by intros [= -> -> ->].
  - by intros (-> & -> & ->).
Qed.

Lemma diff_submissions_empty_iff_witness :
  diff_submissions elements scenario_A1 scenario_A1 = Ret (DiffResult ∅ ∅ [])
  ↔ scenario_A1 = scenario_A1.
Proof. apply (diff_submissions_empty_iff elements). intros X. reflexivity. Defined.

(** X8. Against an empty submission every identifier of the other one is
    reported as present on its side only, and nothing as changed. *)
Theorem diff_submissions_empty_side order (A : gmap string string) :
  visits_once order →
  diff_submissions order A ∅ = Ret (DiffResult (dom A) ∅ []) ∧
  diff_submissions order ∅ A = Ret (DiffResult ∅ (dom A) []).
Proof.
  intros Ho. rewrite !diff_submissions_ret by done. rewrite !dom_empty_L.
  rewrite difference_empty_L, empty_difference_L.
  rewrite intersection_empty_r_L, intersection_empty_l_L.
  by rewrite (visits_once_empty _ Ho).
Qed.

Lemma diff_submissions_empty_side_witness :
  diff_submissions elements scenario_A1 ∅ = Ret (DiffResult (dom scenario_A1) ∅ []) ∧
  diff_submissions elements ∅ scenario_A1 = Ret (DiffResult ∅ (dom scenario_A1) []).
Proof. apply (diff_submissions_empty_side elements). intros X. reflexivity. Defined.

(** X9. The [different] dict lists the common identifiers whose outcomes differ
    in the order in which the set of common identifiers was visited. *)
Theorem diff_submissions_different_order order (A B : gmap string string) :
  visits_once order →
  ∃ d, diff_submissions order A B = Ret d ∧
       odict_keys (different d)
       = filter (λ k, A !! k ≠ B !! k) (order (dom A ∩ dom B)).
Proof.
  intros Ho. eexists. split; [by apply diff_submissions_ret|]. simpl.
  apply changed_items_keys_filter.
  intros k Hk%(visits_once_elem_of _ _ _ Ho).
  apply elem_of_intersection in Hk as [H1 H2]. by rewrite <-!elem_of_dom.
Qed.

Lemma diff_submissions_different_order_witness :
  ∃ d, diff_submissions elements scenario_A1 scenario_A2 = Ret d ∧
       odict_keys (different d)
       = filter (λ k, scenario_A1 !! k ≠ scenario_A2 !! k)
                (elements (dom scenario_A1 ∩ dom scenario_A2)).
Proof.
  apply (diff_submissions_different_order elements). intros X. reflexivity.
Defined.

(** ** More on the colorizer *)

Lemma string_length_app (s t : string) :
  String.length (s +:+ t) = String.length s + String.length t.
Proof.
  induction s as [|c s IH]; [done|].
  change (String c s +:+ t) with (String c (s +:+ t)). simpl. by rewrite IH.
Qed.

Lemma string_app_inj_r (r s t : string) : s +:+ r = t +:+ r → s = t.
Proof.
  revert t. induction s as [|c s IH]; intros [|c' t] E.
  - done.
  - apply (f_equal String.length) in E. rewrite !string_length_app in E.
    simpl in E. lia.
  - apply (f_equal String.length) in E. rewrite !string_length_app in E.
    simpl in E. lia.
  - change (String c (s +:+ r) = String c' (t +:+ r)) in E.
    injection E as -> E. f_equal. by apply IH.
Qed.

(** X10. Two outcomes are colorized alike only when they are equal, or when one
    is "pass" (or "fail") and the other is that word already preceded by its
    own color-start sequence. *)
Theorem colorize_outcome_collisions (s t : string) :
  colorize_outcome s = colorize_outcome t ↔
  s = t ∨
  (s = "pass" ∧ t = bright_green_blink +:+ "pass") ∨
  (t = "pass" ∧ s = bright_green_blink +:+ "pass") ∨
  (s = "fail" ∧ t = bright_red_blink +:+ "fail") ∨
  (t = "fail" ∧ s = bright_red_blink +:+ "fail").
Proof.
  split.
  - unfold colorize_outcome.
    destruct (decide (s = "pass")) as [->|Hsp];
      [|destruct (decide (s = "fail")) as [->|Hsf]];
      (destruct (decide (t = "pass")) as [->|Htp];
        [|destruct (decide (t = "fail")) as [->|Htf]]);
      intros E; try (left; reflexivity); try (cbv in E; discriminate E).
    + right. left. split; [done|]. symmetry.
      by apply (string_app_inj_r color_reset (bright_green_blink +:+ "pass") t).
    + do 3 right. left. split; [done|]. symmetry.
      by apply (string_app_inj_r color_reset (bright_red_blink +:+ "fail") t).
    + do 2 right. left. split; [done|].
      by apply (string_app_inj_r color_reset s (bright_green_blink +:+ "pass")).
    + do 4 right. split; [done|].
      by apply (string_app_inj_r color_reset s (bright_red_blink +:+ "fail")).
    + left. by apply (string_app_inj_r color_reset s t).
  - intros [->|[[-> ->]|[[-> ->]|[[-> ->]|[-> ->]]]]]; reflexivity.
Qed.

(** ** More on main *)

Section main_more.
Variable extract_submissions : string → result json.
Variable set_order : gset string → list string.
Hypothesis set_order_once : visits_once set_order.
Implicit Types A B submission : gmap string string.

Lemma for_each_only_run submission jobs out :
  (∀ job, job ∈ jobs → is_Some (submission !! job)) →
  for_each jobs (λ job,
    outcome ← lift (dict_getitem submission job);
    print (only_line job outcome)) out
  = (Ret (), out ++ omap (λ job, only_line job <$> submission !! job) jobs).
Proof.
  revert out. induction jobs as [|job jobs IH]; intros out Hdom.
  - simpl. by rewrite app_nil_r.
  - destruct (Hdom job) as [v Hv]; [left|].
    simpl. rewrite Hv. simpl.
    erewrite io_bind_ret; [|by rewrite (dict_getitem_Some _ _ _ Hv)].
    rewrite IH by (intros j Hj; apply Hdom; by right).
    by rewrite <-app_assoc.
Qed.

Lemma only_section_run argv n path only submission out :
  argv !! n = Some path →
  only ⊆ dom submission →
  only_section set_order argv n only submission out
  = (Ret (), out ++ only_lines path submission (sorted (set_order only))).
Proof.
  intros Hpath Hdom. unfold only_section, only_lines.
  destruct (decide (only ≠ ∅)) as [Hne|Hne].
  - rewrite decide_False by by rewrite sorted_order_nil.
    unfold list_getitem. rewrite Hpath, io_bind_lift_ret, io_bind_print.
    rewrite for_each_only_run; [by rewrite <-app_assoc|].
    intros job Hjob. apply elem_of_dom, Hdom.
    by rewrite sorted_order_elements, elem_of_elements in Hjob.
  - rewrite decide_True; [by rewrite app_nil_r|].
    apply sorted_order_nil; [done|]. by destruct (decide (only = ∅)).
Qed.

Lemma different_section_run argv0 path1 path2 items out :
  different_section [argv0; path1; path2] items out
  = (Ret (), out ++ different_lines path1 path2 items).
Proof.
  unfold different_section, different_lines.
  destruct (decide (items ≠ [])) as [Hne|Hne].
  - rewrite decide_False by done. rewrite io_bind_print.
    change (list_getitem [argv0; path1; path2] 1) with (Ret path1).
    change (list_getitem [argv0; path1; path2] 2) with (Ret path2).
    rewrite !io_bind_lift_ret, io_bind_print, for_each_different_lines.
    by rewrite <-!app_assoc.
  - rewrite decide_True; [by rewrite app_nil_r|].
    by destruct (decide (items = [])).
Qed.

(** What [main] prints when both archives are read and normalized. *)
Lemma main_run argv0 path1 path2 A B :
  pipeline extract_submissions path1 = Ret A →
  pipeline extract_submissions path2 = Ret B →
  main extract_submissions set_order [argv0; path1; path2] []
  = (Ret (),
     only_lines path1 A (sorted (set_order (dom A ∖ dom B)))
     ++ only_lines path2 B (sorted (set_order (dom B ∖ dom A)))
     ++ different_lines path1 path2
          (changed_items A B (set_order (dom A ∩ dom B)))).
Proof.
  unfold pipeline. intros HA HB. unfold main.
  rewrite decide_False by (simpl; lia).
  change (list_getitem [argv0; path1; path2] 1) with (Ret path1).
  change (list_getitem [argv0; path1; path2] 2) with (Ret path2).
  rewrite io_bind_lift_ret, HA, io_bind_lift_ret, io_bind_lift_ret, HB,
    io_bind_lift_ret, diff_submissions_ret, io_bind_lift_ret by done.
  cbn [only1 only2 different].
  erewrite io_bind_ret; [|apply only_section_run; [done|set_solver]].
  erewrite io_bind_ret; [|apply only_section_run; [done|set_solver]].
  rewrite different_section_run. by rewrite <-!app_assoc.
Qed.

End main_more.

Lemma only_lines_nil path (submission : gmap string string) ids :
  only_lines path submission ids = [] ↔ ids = [].
Proof. unfold only_lines. case_decide; naive_solver. Qed.

Lemma different_lines_nil path1 path2 items :
  different_lines path1 path2 items = [] ↔ items = [].
Proof. unfold different_lines. case_decide; naive_solver. Qed.

Lemma sorted_order_unique order order' (X : gset string) :
  visits_once order → visits_once order' →
  sorted (order X) = sorted (order' X).
Proof.
  intros Ho Ho'. apply (StronglySorted_unique String.le).
  - by apply sorted_order_sorted.
  - by apply sorted_order_sorted.
  - by rewrite !sorted_order_elements.
Qed.

(** X13. When both archives are read and normalized, the program prints nothing
    exactly when the two normalized submissions are the same mapping. *)
Theorem main_silent_iff_equal extract_submissions set_order argv0 path1 path2
    (A B : gmap string string) :
  visits_once set_order →
  pipeline extract_submissions path1 = Ret A →
  pipeline extract_submissions path2 = Ret B →
  main extract_submissions set_order [argv0; path1; path2] [] = (Ret (), []) ↔ A = B.
Proof.
  intros Ho HA HB. rewrite (main_run _ _ Ho _ _ _ A B HA HB). split.
  - intros [= E]. apply app_eq_nil in E as [E1 E].
    apply app_eq_nil in E as [E2 E3].
    apply (diff_parts_empty_iff set_order A B Ho). split_and!.
    + by apply (sorted_order_nil set_order Ho), (only_lines_nil path1 A).
    + by apply (sorted_order_nil set_order Ho), (only_lines_nil path2 B).
    + by apply (different_lines_nil path1 path2).
  - intros (H1 & H2 & H3)%(diff_parts_empty_iff set_order A B Ho).
    rewrite H1, H2, H3.
    by rewrite (proj2 (sorted_order_nil set_order Ho ∅) eq_refl).
Qed.

Lemma main_silent_iff_equal_witness :
  main scenario_A_files elements ["diff_submissions.py"; "a.tar.xz"; "a.tar.xz"] []
  = (Ret (), []) ↔ scenario_A1 = scenario_A1.
Proof.
  apply (main_silent_iff_equal scenario_A_files elements).
  - intros X. reflexivity.
  - vm_compute. reflexivity.
  - vm_compute. reflexivity.
Defined.

(** X14. The order in which the interpreter visits a set shows in the report
    only as the order of the lines of the changed outcomes: two runs on the
    same archives print the same only-in blocks, and the same changed items
    up to their order. *)
Theorem main_set_order_independent extract_submissions set_order set_order'
    argv0 path1 path2 (A B : gmap string string) :
  visits_once set_order → visits_once set_order' →
  pipeline extract_submissions path1 = Ret A →
  pipeline extract_submissions path2 = Ret B →
  ∃ d d' only_blocks,
    diff_submissions set_order A B = Ret d ∧
    diff_submissions set_order' A B = Ret d' ∧
    main extract_submissions set_order [argv0; path1; path2] []
    = (Ret (), only_blocks ++ different_lines path1 path2 (different d)) ∧
    main extract_submissions set_order' [argv0; path1; path2] []
    = (Ret (), only_blocks ++ different_lines path1 path2 (different d')) ∧
    different d ≡ₚ different d'.
Proof.
  intros Ho Ho' HA HB. do 3 eexists.
  split; [by apply diff_submissions_ret|].
  split; [by apply diff_submissions_ret|]. simpl.
  rewrite (main_run _ _ Ho _ _ _ A B HA HB), (main_run _ _ Ho' _ _ _ A B HA HB).
  rewrite !(sorted_order_unique set_order' set_order) by done.
  rewrite !app_assoc. split_and!; [reflexivity..|].
  unfold changed_items. apply omap_Permutation. by rewrite (Ho _), (Ho' _).
Qed.

Lemma main_set_order_independent_witness :
  ∃ d d' only_blocks,
    diff_submissions elements scenario_A1 scenario_A2 = Ret d ∧
    diff_submissions (λ X, reverse (elements X)) scenario_A1 scenario_A2 = Ret d' ∧
    main scenario_A_files elements
      ["diff_submissions.py"; "a.tar.xz"; "b.tar.xz"] []
    = (Ret (), only_blocks ++ different_lines "a.tar.xz" "b.tar.xz" (different d)) ∧
    main scenario_A_files (λ X, reverse (elements X))
      ["diff_submissions.py"; "a.tar.xz"; "b.tar.xz"] []
    = (Ret (), only_blocks ++ different_lines "a.tar.xz" "b.tar.xz" (different d')) ∧
    different d ≡ₚ different d'.
Proof.
  apply (main_set_order_independent scenario_A_files elements
           (λ X, reverse (elements X))).
  - intros X. reflexivity.
  - intros X. simpl. apply reverse_Permutation.
  - vm_compute. reflexivity.
  - vm_compute. reflexivity.
Defined.



(** X16. An exception raised while an archive is read or normalized leaves
    [main] as it is, the first archive going first, and nothing is printed
    before it. *)
Theorem main_propagates extract_submissions set_order argv0 path1 path2 (e : exn) :
  pipeline extract_submissions path1 = Raise e ∨
  ((∃ A, pipeline extract_submissions path1 = Ret A) ∧
   pipeline extract_submissions path2 = Raise e) →
  main extract_submissions set_order [argv0; path1; path2] [] = (Raise e, []).
Proof.
  unfold pipeline. intros H. unfold main. rewrite decide_False by (simpl; lia).
  change (list_getitem [argv0; path1; path2] 1) with (Ret path1).
  change (list_getitem [argv0; path1; path2] 2) with (Ret path2).
  rewrite io_bind_lift_ret. destruct H as [HA|[[A HA] HB]]; rewrite HA; [done|].
  rewrite !io_bind_lift_ret. by rewrite HB.
Qed.

Lemma main_propagates_witness :
  main (λ path, if decide (path = "a.tar.xz")
                then Ret (JObj [("title", JStr "session")])
                else Raise (OSError "No such file or directory"))
       elements ["diff_submissions.py"; "a.tar.xz"; "c.tar.xz"] []
  = (Raise (KeyError "results"), []).
Proof.
  apply (main_propagates _ elements). left. reflexivity.
Defined.

(** ** From the records to the diff *)

(** X17. The diff of two normalized records, read off their entries: an
    identifier is only in the first when some entry of the first and no
    entry of the second carries it, and it is changed, from [a] to [b], when
    the last entry that carries it has status [a] in the first record and a
    different status [b] in the second. *)
Theorem simplify_then_diff set_order (members1 members2 : list (string * json))
    (entries1 entries2 : list json) (pairs1 pairs2 : list (string * string)) :
  visits_once set_order →
  members_get "results" members1 = Some (JArr entries1) →
  members_get "results" members2 = Some (JArr entries2) →
  Forall2 holds_entry entries1 pairs1 →
  Forall2 holds_entry entries2 pairs2 →
  ∃ d,
    (A ← simplify_submission (JObj members1);
     B ← simplify_submission (JObj members2);
     diff_submissions set_order A B) = Ret d ∧
    (∀ k, k ∈ only1 d ↔ k ∈ pairs1.*1 ∧ k ∉ pairs2.*1) ∧
    (∀ k, k ∈ only2 d ↔ k ∈ pairs2.*1 ∧ k ∉ pairs1.*1) ∧
    (∀ k a b, odict_get k (different d) = Some (a, b) ↔
              last_status k pairs1 = Some a ∧ last_status k pairs2 = Some b ∧
              a ≠ b).
Proof.
  intros Ho Hres1 Hres2 Hent1 Hent2. eexists.
  rewrite (simplify_submission_ret _ _ _ Hres1 Hent1), result_bind_ret.
  rewrite (simplify_submission_ret _ _ _ Hres2 Hent2), result_bind_ret.
  split; [by apply diff_submissions_ret|]. simpl. split_and!.
  - intros k. rewrite elem_of_difference, !store_pairs_dom, !elem_of_list_to_set.
    done.
  - intros k. rewrite elem_of_difference, !store_pairs_dom, !elem_of_list_to_set.
    done.
  - intros k a b. rewrite changed_get by done.
    by rewrite !simplify_submission_lookup.
Qed.

Lemma simplify_then_diff_witness :
  ∃ d,
    (A ← simplify_submission (JObj duplicated_record);
     B ← simplify_submission
           (JObj [("results", JArr [entry "job1" "pass"; entry "job3" "fail"])]);
     diff_submissions elements A B) = Ret d ∧
    (∀ k, k ∈ only1 d ↔
          k ∈ [("job1", "pass"); ("job2", "skip"); ("job1", "fail")].*1 ∧
          k ∉ [("job1", "pass"); ("job3", "fail")].*1) ∧
    (∀ k, k ∈ only2 d ↔
          k ∈ [("job1", "pass"); ("job3", "fail")].*1 ∧
          k ∉ [("job1", "pass"); ("job2", "skip"); ("job1", "fail")].*1) ∧
    (∀ k a b, odict_get k (different d) = Some (a, b) ↔
              last_status k [("job1", "pass"); ("job2", "skip"); ("job1", "fail")]
              = Some a ∧
              last_status k [("job1", "pass"); ("job3", "fail")] = Some b ∧
              a ≠ b).
Proof.
  apply (simplify_then_diff elements duplicated_record
           [("results", JArr [entry "job1" "pass"; entry "job3" "fail"])]
           [entry "job1" "pass"; entry "job2" "skip"; entry "job1" "fail"]
           [entry "job1" "pass"; entry "job3" "fail"]).
  - intros X. reflexivity.
  - reflexivity.
  - reflexivity.
  - repeat constructor.
  - repeat constructor.
Defined.

(** ** More on the object store *)

(** X18. The two sets and the dict that the diff returns are three different
    objects, and none of them is one of the two submissions: changing one of
    them later changes no other. *)
Theorem diff_submissions_st_distinct set_order (h : store) (r1 r2 : ref)
    (A B : gmap string string) :
  visits_once set_order →
  h !! r1 = Some (ODict A) →
  h !! r2 = Some (ODict B) →
  ∃ l1 l2 l3 h',
    diff_submissions_st set_order r1 r2 h = (Ret (l1, l2, l3), h') ∧
    (l1 ≠ l2 ∧ l1 ≠ l3 ∧ l2 ≠ l3) ∧
    (l1 ≠ r1 ∧ l2 ≠ r1 ∧ l3 ≠ r1) ∧
    (l1 ≠ r2 ∧ l2 ≠ r2 ∧ l3 ≠ r2).
Proof.
  intros Ho H1 H2.
  destruct (set_of_keys_run r1 A h H1) as (la & Ea & Fa).
  destruct (set_of_keys_run r2 B (<[la := OSet (dom A)]> h))
    as (lb & Eb & Fb); [auto with store|].
  match type of Eb with _ = (_, ?h2) =>
    destruct (set_binop_run (∖) la lb (dom A) (dom B) h2)
      as (l1 & E1 & F1); [eauto with store..|]
  end.
  match type of E1 with _ = (_, ?h3) =>
    destruct (set_binop_run (∖) lb la (dom B) (dom A) h3)
      as (l2 & E2 & F2); [eauto 6 with store..|]
  end.
  match type of E2 with _ = (_, ?h4) =>
    destruct (set_binop_run (∩) la lb (dom A) (dom B) h4)
      as (lc & Ec & Fc); [eauto 7 with store..|]
  end.
  match type of Ec with _ = (_, ?h5) =>
    destruct (alloc_run (OPairs []) h5) as (l3 & E3 & F3)
  end.
  pose proof (different_loop_both set_order A B Ho) as Hloop.
  exists l1, l2, l3. eexists. split.
  { unfold diff_submissions_st.
    erewrite st_bind_ret by exact Ea. erewrite st_bind_ret by exact Eb.
    erewrite st_bind_ret by exact E1. erewrite st_bind_ret by exact E2.
    erewrite st_bind_ret by exact Ec. erewrite st_bind_ret by exact E3.
    erewrite st_bind_ret by (apply iter_set_run; eauto 8 with store).
    erewrite st_bind_ret; [reflexivity|].
    eapply different_loop_st_run; [..|exact Hloop]; eauto 10 with store. }
  rewrite !lookup_insert_None in F1. rewrite !lookup_insert_None in F2.
  rewrite !lookup_insert_None in F3.
  destruct F1 as ((F1 & _) & _), F2 as (((F2 & _) & _) & F21),
    F3 as (((((F3 & _) & _) & F31) & F32) & _).
  split_and!; congruence.
Qed.

Lemma diff_submissions_st_distinct_witness :
  ∃ l1 l2 l3 h',
    diff_submissions_st elements 1%positive 2%positive scenario_A_store
    = (Ret (l1, l2, l3), h') ∧
    (l1 ≠ l2 ∧ l1 ≠ l3 ∧ l2 ≠ l3) ∧
    (l1 ≠ 1%positive ∧ l2 ≠ 1%positive ∧ l3 ≠ 1%positive) ∧
    (l1 ≠ 2%positive ∧ l2 ≠ 2%positive ∧ l3 ≠ 2%positive).
Proof.
  apply (diff_submissions_st_distinct elements scenario_A_store 1%positive 2%positive
           scenario_A1 scenario_A2).
  - intros X. reflexivity.
  - reflexivity.
  - reflexivity.
Defined.
